(** * TRJM: the translation pipeline, its shared types and its database

    A shallow embedding of

    - [packages/shared/types/index.ts] (the shared data contracts),
    - [apps/web/src/app/translate/page.tsx] (the style presets offered by the
      page and its glossary-compliance figure),
    - [deploy/postgres/init.sql] (the tables, their references and
      [cleanup_expired_jobs]),
    - the translate, files, history, glossary and admin pages and the
      dashboard layout of [apps/web] (their handlers as functions on the
      state of the page),

    together with a model of the translation pipeline
    ([services/gateway/src/services/translation/]), whose code is described
    by the specification and by [README.md] / [docs/ARCHITECTURE.md] only.

    Texts are lists of characters; confidence scores are rationals; tables
    are finite maps from the primary key to the row. *)

From Stdlib Require Import ZArith QArith Qround Bool List Ascii String Lia.
From Stdlib Require Import DecimalString Lqa Sorted.
From stdpp Require Import base decidable option list fin_maps gmap.
Import ListNotations.

#[local] Open Scope nat_scope.

(** ** Texts *)

Abbreviation text := (list ascii).

(** A string literal as a text. *)
Definition txt (s : string) : text := list_ascii_of_string s.

Module Text.

(** [starts_with needle hay]: [hay.startsWith(needle)]. *)
Fixpoint starts_with (needle hay : text) : bool :=
  match needle, hay with
  | [], _ => true
  | _ :: _, [] => false
  | c :: needle', d :: hay' => Ascii.eqb c d && starts_with needle' hay'
  end.

(** [occurs needle hay]: [hay.includes(needle)]; the empty needle occurs
    everywhere. *)
Fixpoint occurs (needle hay : text) : bool :=
  starts_with needle hay ||
  match hay with
  | [] => false
  | _ :: hay' => occurs needle hay'
  end.

(** [replace_first tok lit hay]: the first occurrence of [tok] in [hay]
    replaced by [lit]; [None] when [tok] does not occur. *)
Fixpoint replace_first (tok lit hay : text) : option text :=
  if starts_with tok hay then Some (lit ++ skipn (length tok) hay)
  else match hay with
       | [] => None
       | c :: hay' =>
           match replace_first tok lit hay' with
           | Some r => Some (c :: r)
           | None => None
           end
       end.

(** [slice i j t]: [t.slice(i, j)], the half-open range [i, j). *)
Definition slice (i j : nat) (t : text) : text := firstn (j - i) (skipn i t).

(** ASCII lower-casing, for case-insensitive glossary matching. *)
Definition lower_char (c : ascii) : ascii :=
  let n := nat_of_ascii c in
  if (65 <=? n) && (n <=? 90) then ascii_of_nat (n + 32) else c.

Definition lower (t : text) : text := map lower_char t.

Definition text_eqb (a b : text) : bool := bool_decide (a = b).

End Text.

(** ** Shared types ([packages/shared/types/index.ts]) *)

Module Types.

Inductive LanguageCode := en | ar | fr | de | es | auto.

Inductive StylePreset := formal_msa | neutral | marketing | government_memo.

Inductive ContentType :=
  general | email_content | legal | technical | marketing_content
| ui_strings | government.

Inductive FormalityLevel := informal | neutral_formality | formal | highly_formal.

Inductive SpecialElementType :=
  url | email | placeholder | code | html | bracketed | number | date
| currency | entity | technical_term.

Record Position := { start : nat; end_ : nat }.

Record SpecialElement := {
  type : SpecialElementType;
  value : text;
  position : option Position;
  protect : bool
}.

Record GlossaryEntry := {
  source : text;
  target : text;
  case_sensitive : option bool;
  context : option text
}.

Record TranslationRequest := {
  req_text : text;
  req_source_language : option LanguageCode;
  req_target_language : option LanguageCode;
  req_style_preset : option StylePreset;
  req_glossary_id : option string;
  req_protected_patterns : option (list text)
}.

Inductive IssueSeverity := critical | major | minor | suggestion.

Inductive IssueCategory :=
  meaning | omission | addition | numbers | entities | glossary
| protected_tokens | grammar | punctuation | formatting | leftover_source
| cultural.

Record QAIssue := {
  issue_id : option string;
  category : IssueCategory;
  severity : IssueSeverity;
  description : string;
  source_segment : option text;
  translation_segment : option text;
  suggested_fix : option text;
  auto_fixed : option bool
}.

Inductive RiskLevel := low | medium | high.

Record RiskySpan := {
  risky_text : text;
  reason : string;
  risk_level : option RiskLevel;
  risky_position : option Position;
  requires_human_review : option bool
}.

Inductive ConfidenceLevel := excellent | good | acceptable | poor | unacceptable.

Record QAMetrics := {
  total_issues : nat;
  critical_issues : nat;
  major_issues : nat;
  minor_issues : nat;
  suggestions : nat;
  source_char_count : nat;
  translation_char_count : nat;
  length_ratio : Q
}.

Record QAReport := {
  confidence_score : Q;
  confidence_level : option ConfidenceLevel;
  issues : list QAIssue;
  glossary_compliance : bool;
  protected_tokens_intact : bool;
  risky_spans : option (list RiskySpan);
  reviewer_notes : option string;
  metrics : option QAMetrics
}.

Record TranslationResponse := {
  job_id : string;
  translation : text;
  source_language : LanguageCode;
  target_language : LanguageCode;
  confidence : Q;
  qa_report : QAReport;
  processing_time_ms : Z;
  retries : nat
}.

Inductive JobStatus := pending | processing | completed | failed | expired.

Inductive JobType := text_job | file_job.

Record APIError := {
  api_code : string;
  api_message : string;
  api_details : option (list (string * string));
  api_correlation_id : option string
}.

#[global] Instance LanguageCode_eq_dec : EqDecision LanguageCode.
Proof. solve_decision. Defined.
#[global] Instance StylePreset_eq_dec : EqDecision StylePreset.
Proof. solve_decision. Defined.
#[global] Instance IssueSeverity_eq_dec : EqDecision IssueSeverity.
Proof. solve_decision. Defined.
#[global] Instance IssueCategory_eq_dec : EqDecision IssueCategory.
Proof. solve_decision. Defined.
#[global] Instance ConfidenceLevel_eq_dec : EqDecision ConfidenceLevel.
Proof. solve_decision. Defined.
#[global] Instance JobStatus_eq_dec : EqDecision JobStatus.
Proof. solve_decision. Defined.

(** The string literal of each member of the [StylePreset] union. *)
Definition StylePreset_literal (p : StylePreset) : string :=
  match p with
  | formal_msa => "formal_msa"
  | neutral => "neutral"
  | marketing => "marketing"
  | government_memo => "government_memo"
  end%string.

(** A string is a [StylePreset] when it is one of the union's literals. *)
Definition is_StylePreset (s : string) : bool :=
  bool_decide (s ∈ map StylePreset_literal
                     [formal_msa; neutral; marketing; government_memo]).

End Types.

(** ** The translate page ([apps/web/src/app/translate/page.tsx]) *)

Module TranslatePage.
Import Types.

Record PresetOption := {
  preset_value : string;
  preset_label : string;
  preset_description : string
}.

(** [const stylePresets = [...]], the options of the style select. *)
Definition stylePresets : list PresetOption :=
  [ {| preset_value := "neutral"; preset_label := "Neutral";
       preset_description := "Balanced, standard translation" |};
    {| preset_value := "formal"; preset_label := "Formal";
       preset_description := "Professional, business-appropriate" |};
    {| preset_value := "casual"; preset_label := "Casual";
       preset_description := "Conversational, friendly tone" |};
    {| preset_value := "technical"; preset_label := "Technical";
       preset_description := "Precise, domain-specific terminology" |};
    {| preset_value := "literary"; preset_label := "Literary";
       preset_description := "Eloquent, preserving artistic style" |} ].

(** The values the select can put into the [stylePreset] state, which
    [handleTranslate] sends as [style_preset]. *)
Definition offered_style_presets : list string := map preset_value stylePresets.

(** [useState("neutral")]. *)
Definition initial_stylePreset : string := "neutral".

Record LanguageOption := {
  language_value : string;
  language_label : string;
  language_native : string
}.

(** [const targetLanguages = [...]] (the native name of Arabic is left
    out here). *)
Definition targetLanguages : list LanguageOption :=
  [ {| language_value := "ar"; language_label := "Arabic (MSA)";
       language_native := "" |};
    {| language_value := "en"; language_label := "English";
       language_native := "English" |} ].

(** [useState("ar")]. *)
Definition initial_targetLanguage : string := "ar".

(** The argument of [translationAPI.translate] in [handleTranslate]. *)
Record TranslateCall := {
  call_text : text;
  call_target_language : string;
  call_style_preset : string;
  call_glossary_id : option string
}.

(** White space that [String.prototype.trim] removes, within ASCII. *)
Definition is_space (c : ascii) : bool :=
  let n := nat_of_ascii c in
  (n =? 32) || ((9 <=? n) && (n <=? 13)).

(** [handleTranslate]: nothing is sent for a blank text; otherwise the
    call carries the page's target language and style preset. *)
Definition handleTranslate (sourceText : text)
    (targetLanguage stylePreset : string) (glossaryId : option string)
    : option TranslateCall :=
  if forallb is_space sourceText then None
  else Some {| call_text := sourceText;
               call_target_language := targetLanguage;
               call_style_preset := stylePreset;
               call_glossary_id := glossaryId |}.

(** JavaScript's [ToNumber] on a boolean. *)
Definition js_number_of_bool (b : bool) : Q := if b then 1%Q else 0%Q.

(** [Math.round(x)]: the nearest integer, halves rounded up. *)
Definition Math_round (x : Q) : Z := Qfloor (x + (1 # 2)).

(** [Math.round((result.qa_report?.glossary_compliance || 0) * 100)]:
    the percentage shown under "Glossary Compliance".  The field is a
    boolean: [true || 0] is [true], which multiplies as 1; [false || 0]
    and a missing report give 0. *)
Definition glossary_compliance_percent (report : option QAReport) : Z :=
  let v := match report with
           | Some r => if glossary_compliance r
                       then js_number_of_bool true else 0%Q
           | None => 0%Q
           end in
  Math_round (v * 100)%Q.

End TranslatePage.

(** ** The database ([deploy/postgres/init.sql]) *)

Module Database.
Import Types.

Abbreviation UUID := N.
(** [TIMESTAMP WITH TIME ZONE]: microseconds since the epoch. *)
Abbreviation timestamptz := Z.

(** A row of [jobs], without its primary key [id]. *)
Record job_row := {
  job_user_id : UUID;
  job_job_type : JobType;
  job_status : JobStatus;
  job_source_language : string;
  job_target_language : string;
  job_style_preset : option string;
  job_input_text : option text;
  job_output_text : option text;
  job_file_name : option string;
  job_file_path : option string;
  job_output_file_path : option string;
  job_glossary_id : option UUID;
  job_qa_report : option QAReport;
  job_confidence : option Q;
  job_error_message : option string;
  job_retries : option Z;
  job_processing_time_ms : option Z;
  job_created_at : option timestamptz;
  job_completed_at : option timestamptz;
  job_expires_at : timestamptz
}.

(** A row of [glossaries], without [id]. *)
Record glossary_row := {
  glossary_user_id : option UUID;
  glossary_name : string;
  glossary_description : option string;
  glossary_source_language : string;
  glossary_target_language : string;
  glossary_is_global : option bool;
  glossary_version : option Z;
  glossary_created_at : option timestamptz;
  glossary_updated_at : option timestamptz
}.

(** A row of [glossary_entries], without [id]; [entry_glossary_id] is
    [glossary_id UUID NOT NULL REFERENCES glossaries(id) ON DELETE CASCADE]. *)
Record glossary_entry_row := {
  entry_glossary_id : UUID;
  entry_source_term : string;
  entry_target_term : string;
  entry_case_sensitive : option bool;
  entry_context : option string;
  entry_created_at : option timestamptz;
  entry_updated_at : option timestamptz
}.

(** The three tables, each keyed by its primary key.  [jobs.glossary_id]
    is a plain [UUID] column: the schema declares no reference for it. *)
Record db := {
  jobs : gmap UUID job_row;
  glossaries : gmap UUID glossary_row;
  glossary_entries : gmap UUID glossary_entry_row
}.

(** [WHERE expires_at < NOW() AND status != 'processing'].  Both columns
    are [NOT NULL], so the condition is two-valued. *)
Definition cleanup_condition (now : timestamptz) (r : job_row) : Prop :=
  (job_expires_at r < now)%Z ∧ job_status r ≠ processing.

#[global] Instance cleanup_condition_dec now r : Decision (cleanup_condition now r).
Proof. unfold cleanup_condition. apply _. Defined.

(** [cleanup_expired_jobs()]: the [DELETE], then [ROW_COUNT] returned. *)
Definition cleanup_expired_jobs (now : timestamptz) (d : db) : db * Z :=
  let deleted := filter (λ kr, cleanup_condition now kr.2) (jobs d) in
  let kept := filter (λ kr, ¬ cleanup_condition now kr.2) (jobs d) in
  ({| jobs := kept;
      glossaries := glossaries d;
      glossary_entries := glossary_entries d |},
   Z.of_nat (size deleted)).

(** [DELETE FROM glossaries WHERE id = gid], with the cascade of
    [glossary_entries.glossary_id].  No other column of the schema
    references [glossaries]. *)
Definition delete_glossary (gid : UUID) (d : db) : db :=
  match glossaries d !! gid with
  | None => d
  | Some _ =>
      {| jobs := jobs d;
         glossaries := delete gid (glossaries d);
         glossary_entries :=
           filter (λ kr, entry_glossary_id kr.2 ≠ gid) (glossary_entries d) |}
  end.

(** The foreign key of [glossary_entries]. *)
Definition entries_reference_glossaries (d : db) : Prop :=
  ∀ k e, glossary_entries d !! k = Some e →
         is_Some (glossaries d !! entry_glossary_id e).

End Database.

(** ** The translation pipeline

    The pipeline's code ([services/gateway/src/services/translation/]) is
    described by the specification only; every definition of this module is
    modelled from it.  What the specification leaves open is a field of
    [Collaborators]: the model-completion service, the glossary and template
    stores, the pattern matchers of the span extractor, the placeholder
    token format, the typographic normaliser and the clock. *)

Module Pipeline.
Import Types Text.

(** *** Data *)

(** Modelled from the spec: ProtectedSpan (§3), the pipeline's view of a
    [SpecialElement] with its half-open offsets always present. *)
Record ProtectedSpan := {
  span_kind : SpecialElementType;
  span_value : text;
  span_start : nat;
  span_end : nat;
  must_protect : bool
}.

(** Modelled from the spec: TranslationUnit (§3), the immutable part. *)
Record TranslationUnit := {
  unit_id : string;
  unit_source_text : text;
  unit_source_language : LanguageCode;
  unit_target_language : LanguageCode;
  unit_style_preset : StylePreset;
  unit_glossary_id : option string;
  unit_protected_patterns : list text
}.

(** Modelled from the spec: the configurable constants of §9, with the
    stated defaults. *)
Record Config := {
  max_retries : nat;
  confidence_threshold : Q;
  default_source_language : LanguageCode
}.

Definition default_config : Config :=
  {| max_retries := 2;
     confidence_threshold := 75 # 100;
     default_source_language := en |}.

Inductive Stage := Router | Translator | Reviewer | PostProcessor | Packager.

(** Modelled from the spec: the error kinds of §7. *)
Inductive ErrorKind :=
  RouterValidationError | ModelUnavailableError
| TranslatorRestorationError | RetryBudgetExhausted.

(** "Only RouterValidationError and ModelUnavailableError are fatal". *)
Definition fatal (k : ErrorKind) : bool :=
  match k with
  | RouterValidationError | ModelUnavailableError => true
  | TranslatorRestorationError | RetryBudgetExhausted => false
  end.

Record PipelineError := {
  error_stage : Stage;
  error_kind : ErrorKind;
  correlation_id : string
}.

(** What the model-completion collaborator returns (§6). *)
Inductive ModelReply (A : Type) :=
| Completion (a : A)
| Unavailable.
Arguments Completion {A} a.
Arguments Unavailable {A}.

(** The Router's completion: a field is [None] when the model produced no
    value of the enumeration ([reply_language = None] is an inconclusive
    detection). *)
Record RouterReply := {
  reply_language : option LanguageCode;
  reply_content_type : option ContentType;
  reply_formality : option FormalityLevel;
  reply_strategy : string
}.

Record RouterOutput := {
  resolved_language : LanguageCode;
  content_type : ContentType;
  formality : FormalityLevel;
  strategy : string
}.

Record ReviewerReply := {
  reviewed_translation : text;
  reply_confidence : Q;
  reply_issues : list QAIssue;
  reply_risky_spans : list RiskySpan;
  reply_notes : option string
}.

Record MatchedEntry := {
  matched_entry : GlossaryEntry;
  advisory : bool
}.

(** The Translator's output (§4.3). *)
Record DraftOutput := {
  draft_text : text;
  draft_spans : list ProtectedSpan;
  draft_applied : list GlossaryEntry;
  draft_unrestored : list ProtectedSpan
}.

(** The Reviewer's output (§4.4). *)
Record ReviewOutput := {
  review_text : text;
  review_report : QAReport
}.

(** The unit's terminal result (§4.6). *)
Record PipelineResult := {
  result_response : TranslationResponse;
  result_style_preset : StylePreset
}.

(** Modelled from the spec: what the pipeline takes from its environment
    (§6) and what the specification leaves open: the three model calls,
    the glossary and template stores, the span extractor, the placeholder
    token of a span index, the typographic normaliser of a target
    language, the clock and the correlation identifier. *)
Record Collaborators := {
  complete_router : TranslationUnit → ModelReply RouterReply;
  (** template, attempt number, masked source, glossary entries to inject,
      issues to address *)
  complete_translator :
    text → nat → text → list MatchedEntry → list QAIssue → ModelReply text;
  (** attempt number, source, draft *)
  complete_reviewer : nat → text → text → ModelReply ReviewerReply;
  glossary_store : string → LanguageCode → LanguageCode → list GlossaryEntry;
  template_store : string → ContentType → text;
  extract_spans : text → list text → list ProtectedSpan;
  placeholder_token : nat → text;
  normalize : LanguageCode → text → text;
  elapsed_ms : Z;
  new_correlation_id : string
}.

(** *** Confidence *)

Definition Qltb (a b : Q) : bool := negb (Qle_bool b a).

(** Modelled from the spec: the derived confidence level of §3
    ([getConfidenceLevel] of [@/lib/utils] and the pipeline's own
    derivation are both absent). *)
Definition confidence_level_of (score : Q) : ConfidenceLevel :=
  if Qle_bool (95 # 100) score then excellent
  else if Qle_bool (85 # 100) score then good
  else if Qle_bool (75 # 100) score then acceptable
  else if Qle_bool (5 # 10) score then poor
  else unacceptable.

(** Modelled from the spec: the retry decision of §4.4. *)
Definition needs_retry (cfg : Config) (score : Q) (retry_count : nat) : bool :=
  Qltb score (confidence_threshold cfg) && (retry_count <? max_retries cfg).

(** *** Placeholders (§4.3) *)

(** Modelled from the spec: each must-protect span's literal is replaced
    by the placeholder token of its index in the span list; advisory
    spans are not substituted.  [cursor] is the offset up to which the
    source has been copied. *)
Fixpoint mask_from (token : nat → text) (cursor idx : nat) (t : text)
    (spans : list ProtectedSpan) : text :=
  match spans with
  | [] => skipn cursor t
  | s :: rest =>
      if must_protect s
      then slice cursor (span_start s) t ++ token idx
             ++ mask_from token (span_end s) (S idx) t rest
      else mask_from token cursor (S idx) t rest
  end.

Definition substitute_placeholders (token : nat → text) (t : text)
    (spans : list ProtectedSpan) : text :=
  mask_from token 0 0 t spans.

(** Modelled from the spec: placeholders are substituted back span by
    span; a placeholder that is missing from the draft is not guessed:
    the span is reported as unrestored. *)
Fixpoint restore_from (token : nat → text) (idx : nat) (draft : text)
    (spans : list ProtectedSpan) : text * list ProtectedSpan :=
  match spans with
  | [] => (draft, [])
  | s :: rest =>
      if must_protect s
      then match replace_first (token idx) (span_value s) draft with
           | Some draft' => restore_from token (S idx) draft' rest
           | None =>
               let '(d, missing) := restore_from token (S idx) draft rest in
               (d, s :: missing)
           end
      else restore_from token (S idx) draft rest
  end.

Definition restore_placeholders (token : nat → text) (draft : text)
    (spans : list ProtectedSpan) : text * list ProtectedSpan :=
  restore_from token 0 draft spans.

(** The spans are ordered, non-overlapping, inside the text, and carry the
    literal found at their offsets (the extractor's output contract, §4.1). *)
Fixpoint spans_wf (cursor : nat) (t : text) (spans : list ProtectedSpan) : bool :=
  match spans with
  | [] => true
  | s :: rest =>
      (cursor <=? span_start s) && (span_start s <=? span_end s)
      && (span_end s <=? length t)
      && text_eqb (span_value s) (slice (span_start s) (span_end s) t)
      && spans_wf (span_end s) t rest
  end.

(** The placeholder of each must-protect span is found first where the
    substitution puts it: the token occurs neither in the source text
    before the span nor astride the span's start, that is, not in the
    text before the span followed by the token less its last character. *)
Fixpoint tokens_fresh (token : nat → text) (idx : nat) (t : text)
    (spans : list ProtectedSpan) : bool :=
  match spans with
  | [] => true
  | s :: rest =>
      (if must_protect s
       then negb (occurs (token idx)
                    (firstn (span_start s) t ++ removelast (token idx)))
       else true)
      && tokens_fresh token (S idx) t rest
  end.

(** A draft in which the model left every placeholder untouched: the
    tokens of the must-protect spans, in order, between texts [gap i]
    chosen by the model; [fill] says what stands at each span. *)
Fixpoint interleave (fill : nat → ProtectedSpan → text) (gap : nat → text)
    (idx : nat) (spans : list ProtectedSpan) (tail : text) : text :=
  match spans with
  | [] => tail
  | s :: rest =>
      if must_protect s
      then gap idx ++ fill idx s ++ interleave fill gap (S idx) rest tail
      else interleave fill gap (S idx) rest tail
  end.

(** The same for such a draft standing after [before]: once the
    placeholders before it are restored, each placeholder is found first
    where it stands. *)
Fixpoint draft_fresh (token : nat → text) (gap : nat → text) (idx : nat)
    (before : text) (spans : list ProtectedSpan) : bool :=
  match spans with
  | [] => true
  | s :: rest =>
      if must_protect s
      then negb (occurs (token idx)
                   (before ++ gap idx ++ removelast (token idx)))
           && draft_fresh token gap (S idx)
                (before ++ gap idx ++ span_value s) rest
      else draft_fresh token gap (S idx) before rest
  end.

(** *** Glossary matcher (§4.1) *)

Definition entry_matches (e : GlossaryEntry) (src : text) : bool :=
  match case_sensitive e with
  | Some true => occurs (source e) src
  | _ => occurs (lower (source e)) (lower src)
  end.

Fixpoint occurrences_from (pos : nat) (needle hay : text) : list nat :=
  (if starts_with needle hay then [pos] else [])
  ++ match hay with
     | [] => []
     | _ :: hay' => occurrences_from (S pos) needle hay'
     end.

Definition overlaps_span (pos len : nat) (s : ProtectedSpan) : bool :=
  must_protect s && (pos <? span_end s) && (span_start s <? pos + len).

Definition term_occurrences (e : GlossaryEntry) (src : text) : list nat :=
  match case_sensitive e with
  | Some true => occurrences_from 0 (source e) src
  | _ => occurrences_from 0 (lower (source e)) (lower src)
  end.

(** Modelled from the spec: every entry whose source term occurs in the
    source text is recorded; it is advisory when an occurrence overlaps a
    protected span. *)
Definition match_glossary (entries : list GlossaryEntry)
    (spans : list ProtectedSpan) (src : text) : list MatchedEntry :=
  map (λ e,
         {| matched_entry := e;
            advisory :=
              existsb (λ pos, existsb (overlaps_span pos (length (source e))) spans)
                      (term_occurrences e src) |})
      (filter (λ e, entry_matches e src = true) entries).

(** Modelled from the spec: the entries the Translator applied and is
    held to (§4.3): the matched entries that are not advisory. *)
Definition applied_entries (ms : list MatchedEntry) : list GlossaryEntry :=
  map matched_entry (filter (λ m, advisory m = false) ms).

(** *** Reviewer: independent verification and report assembly (§4.4) *)

(** Modelled from the spec: the Reviewer's independent check of the
    protected spans (the Reviewer stage is not under [src/]): the
    must-protect spans whose literal does not occur in [t]. *)
Definition missing_protected (spans : list ProtectedSpan) (t : text)
    : list ProtectedSpan :=
  filter (λ s, must_protect s = true ∧ occurs (span_value s) t = false) spans.

(** Modelled from the spec: the Reviewer's independent check of the
    glossary (not under [src/]): the applied entries whose target term
    does not occur in [t]. *)
Definition missing_glossary (applied : list GlossaryEntry) (t : text)
    : list GlossaryEntry :=
  filter (λ e, occurs (target e) t = false) applied.

(** Modelled from the spec: the critical [protected_tokens] issue raised
    for a lost literal. *)
Definition protected_issue (s : ProtectedSpan) : QAIssue :=
  {| issue_id := None;
     category := protected_tokens;
     severity := critical;
     description := "Protected token missing from the translation";
     source_segment := Some (span_value s);
     translation_segment := None;
     suggested_fix := Some (span_value s);
     auto_fixed := Some false |}.

(** Modelled from the spec: the major [glossary] issue raised for an unmet
    target term. *)
Definition glossary_issue (e : GlossaryEntry) : QAIssue :=
  {| issue_id := None;
     category := glossary;
     severity := major;
     description := "Glossary term missing from the translation";
     source_segment := Some (source e);
     translation_segment := None;
     suggested_fix := Some (target e);
     auto_fixed := Some false |}.

(** The key issues are deduplicated by: category and excerpts. *)
Definition issue_key (i : QAIssue)
    : IssueCategory * option text * option text :=
  (category i, source_segment i, translation_segment i).

(** Keeps the first issue of each key. *)
Fixpoint dedup_issues (seen : list (IssueCategory * option text * option text))
    (l : list QAIssue) : list QAIssue :=
  match l with
  | [] => []
  | i :: rest =>
      if bool_decide (issue_key i ∈ seen) then dedup_issues seen rest
      else i :: dedup_issues (issue_key i :: seen) rest
  end.

(** Modelled from the spec: the independently verified issues are merged
    with the model-reported ones; of two issues with one key the verified
    one is kept. *)
Definition merge_issues (verified reported : list QAIssue) : list QAIssue :=
  dedup_issues [] (verified ++ reported).

Definition count_severity (sev : IssueSeverity) (l : list QAIssue) : nat :=
  length (filter (λ i, severity i = sev) l).

Definition compute_metrics (src final : text) (l : list QAIssue) : QAMetrics :=
  {| total_issues := length l;
     critical_issues := count_severity critical l;
     major_issues := count_severity major l;
     minor_issues := count_severity minor l;
     suggestions := count_severity suggestion l;
     source_char_count := length src;
     translation_char_count := length final;
     length_ratio :=
       match length src with
       | 0 => 0%Q
       | S n => (Z.of_nat (length final) # Pos.of_succ_nat n)%Q
       end |}.

(** Modelled from the spec: the QA report the Reviewer creates (§4.4, not
    under [src/]) from the model's reply and its own checks of the
    reviewed translation. *)
Definition assemble_report (src : text) (spans : list ProtectedSpan)
    (applied : list GlossaryEntry) (reply : ReviewerReply) : QAReport :=
  let final := reviewed_translation reply in
  let lost := missing_protected spans final in
  let unmet := missing_glossary applied final in
  let all := merge_issues (map protected_issue lost ++ map glossary_issue unmet)
                          (reply_issues reply) in
  {| confidence_score := reply_confidence reply;
     confidence_level := Some (confidence_level_of (reply_confidence reply));
     issues := all;
     glossary_compliance := bool_decide (unmet = []);
     protected_tokens_intact := bool_decide (lost = []);
     risky_spans := Some (reply_risky_spans reply);
     reviewer_notes := reply_notes reply;
     metrics := Some (compute_metrics src final all) |}.

(** *** Post-Processor (§4.5) *)

Definition formatting_issue (before after : text) : QAIssue :=
  {| issue_id := None;
     category := formatting;
     severity := minor;
     description := "Typography normalised";
     source_segment := None;
     translation_segment := Some before;
     suggested_fix := Some after;
     auto_fixed := Some true |}.

(** Modelled from the spec: a change of the text is recorded as an
    auto-fixed formatting issue; the confidence score and the two flags
    are left as the Reviewer set them. *)
Definition amend_report (src before after : text) (r : QAReport) : QAReport :=
  let all := issues r ++ [formatting_issue before after] in
  {| confidence_score := confidence_score r;
     confidence_level := confidence_level r;
     issues := all;
     glossary_compliance := glossary_compliance r;
     protected_tokens_intact := protected_tokens_intact r;
     risky_spans := risky_spans r;
     reviewer_notes := reviewer_notes r;
     metrics := Some (compute_metrics src after all) |}.

(** Modelled from the spec: the Post-Processor stage (§4.5, not under
    [src/]), for the normaliser of the target language. *)
Definition post_process (normalise : text → text) (src : text)
    (rev : ReviewOutput) : text * QAReport :=
  let before := review_text rev in
  let after := normalise before in
  if bool_decide (after = before) then (before, review_report rev)
  else (after, amend_report src before after (review_report rev)).

(** *** Orchestrator (§4.7) *)

(** Modelled from the spec: the states of §4.7 (the orchestrator,
    [pipeline.py], is not under [src/]), each with the data the unit holds
    in it. *)
Inductive Phase :=
| Routing
| Translating (r : RouterOutput)
| Reviewing (r : RouterOutput) (d : DraftOutput)
| RetryTranslating (r : RouterOutput) (to_address : list QAIssue)
| PostProcessing (r : RouterOutput) (rev : ReviewOutput)
| Packaging (r : RouterOutput) (final : text) (report : QAReport)
| Done (res : PipelineResult)
| Failed (err : PipelineError).

(** Modelled from the spec: the state of a unit: its phase, its retry
    count, and the number of times the Translator has called the model. *)
Record UnitState := {
  phase : Phase;
  retry_count : nat;
  translation_attempts : nat
}.

Inductive Outcome :=
| Completed (res : PipelineResult)
| FailedUnit (err : PipelineError).

(** The stage at work in each phase. *)
Definition stage_of (p : Phase) : option Stage :=
  match p with
  | Routing => Some Router
  | Translating _ | RetryTranslating _ _ => Some Translator
  | Reviewing _ _ => Some Reviewer
  | PostProcessing _ _ => Some PostProcessor
  | Packaging _ _ _ => Some Packager
  | Done _ | Failed _ => None
  end.

Section Orchestrator.
Context (cfg : Config) (env : Collaborators) (u : TranslationUnit).

Definition fail (st : UnitState) (s : Stage) (k : ErrorKind) : UnitState :=
  {| phase := Failed {| error_stage := s; error_kind := k;
                        correlation_id := new_correlation_id env |};
     retry_count := retry_count st;
     translation_attempts := translation_attempts st |}.

Definition goto (st : UnitState) (p : Phase) : UnitState :=
  {| phase := p;
     retry_count := retry_count st;
     translation_attempts := translation_attempts st |}.

(** Modelled from the spec: the Router's output contract (§4.2, the stage
    is not under [src/]): the declared language stands unless it is
    [auto]; an inconclusive detection resolves to the configured default;
    a reply outside the contract is a validation failure. *)
Definition validate_router (reply : RouterReply) : option RouterOutput :=
  let lang :=
    match unit_source_language u with
    | auto => match reply_language reply with
              | Some l => l
              | None => default_source_language cfg
              end
    | declared => declared
    end in
  match lang, reply_content_type reply, reply_formality reply with
  | auto, _, _ => None
  | _, Some ct, Some f =>
      Some {| resolved_language := lang; content_type := ct;
              formality := f; strategy := reply_strategy reply |}
  | _, _, _ => None
  end.

Definition unit_spans : list ProtectedSpan :=
  extract_spans env (unit_source_text u) (unit_protected_patterns u).

(** The glossary of the unit for the resolved source language. *)
Definition unit_glossary (lang : LanguageCode) : list GlossaryEntry :=
  match unit_glossary_id u with
  | Some g => glossary_store env g lang (unit_target_language u)
  | None => []
  end.

Definition unit_matched (lang : LanguageCode) : list MatchedEntry :=
  match_glossary (unit_glossary lang) unit_spans (unit_source_text u).

(** The glossary entries the unit is held to. *)
Definition unit_applied (lang : LanguageCode) : list GlossaryEntry :=
  applied_entries (unit_matched lang).

(** Modelled from the spec: the Translator stage (§4.3, not under
    [src/]): mask, call the model, restore. *)
Definition translate (r : RouterOutput) (attempt : nat)
    (to_address : list QAIssue) : ModelReply DraftOutput :=
  let spans := unit_spans in
  let matched := unit_matched (resolved_language r) in
  let masked := substitute_placeholders (placeholder_token env)
                  (unit_source_text u) spans in
  match complete_translator env (template_store env (strategy r) (content_type r))
          attempt masked matched to_address with
  | Unavailable => Unavailable
  | Completion raw =>
      let '(restored, missing) :=
        restore_placeholders (placeholder_token env) raw spans in
      Completion {| draft_text := restored;
                    draft_spans := spans;
                    draft_applied := applied_entries matched;
                    draft_unrestored := missing |}
  end.

Definition after_translate (st : UnitState) (r : RouterOutput)
    (to_address : list QAIssue) : UnitState :=
  match translate r (translation_attempts st) to_address with
  | Unavailable => fail st Translator ModelUnavailableError
  | Completion d =>
      {| phase := Reviewing r d;
         retry_count := retry_count st;
         translation_attempts := S (translation_attempts st) |}
  end.

(** Modelled from the spec: the Packager (§4.6, not under [src/]). *)
Definition package (st : UnitState) (r : RouterOutput) (final : text)
    (report : QAReport) : PipelineResult :=
  {| result_response :=
       {| job_id := unit_id u;
          translation := final;
          source_language := resolved_language r;
          target_language := unit_target_language u;
          confidence := confidence_score report;
          qa_report := report;
          processing_time_ms := elapsed_ms env;
          retries := retry_count st |};
     result_style_preset := unit_style_preset u |}.

(** Modelled from the spec: one transition of the orchestrator's state
    machine (§4.7, [pipeline.py] is not under [src/]).  A failed model
    call or an invalid Router reply fails the unit; the Reviewer's score
    decides between a retry and post-processing. *)
Definition step (st : UnitState) : UnitState :=
  match phase st with
  | Routing =>
      match complete_router env u with
      | Unavailable => fail st Router ModelUnavailableError
      | Completion reply =>
          match validate_router reply with
          | None => fail st Router RouterValidationError
          | Some r => goto st (Translating r)
          end
      end
  | Translating r => after_translate st r []
  | RetryTranslating r to_address => after_translate st r to_address
  | Reviewing r d =>
      match complete_reviewer env (translation_attempts st)
              (unit_source_text u) (draft_text d) with
      | Unavailable => fail st Reviewer ModelUnavailableError
      | Completion reply =>
          let report := assemble_report (unit_source_text u) (draft_spans d)
                          (draft_applied d) reply in
          if needs_retry cfg (reply_confidence reply) (retry_count st)
          then {| phase := RetryTranslating r (issues report);
                  retry_count := S (retry_count st);
                  translation_attempts := translation_attempts st |}
          else goto st (PostProcessing r
                          {| review_text := reviewed_translation reply;
                             review_report := report |})
      end
  | PostProcessing r rev =>
      let '(final, report) :=
        post_process (normalize env (unit_target_language u))
                     (unit_source_text u) rev in
      goto st (Packaging r final report)
  | Packaging r final report => goto st (Done (package st r final report))
  | Done _ | Failed _ => st
  end.

Definition initial : UnitState :=
  {| phase := Routing; retry_count := 0; translation_attempts := 0 |}.

Definition terminal (st : UnitState) : bool :=
  match phase st with
  | Done _ | Failed _ => true
  | _ => false
  end.

(** Modelled from the spec: the orchestrator's loop (§9): transitions
    until a terminal phase, at most [fuel] of them. *)
Fixpoint run_from (fuel : nat) (st : UnitState) : UnitState :=
  match fuel with
  | 0 => st
  | S fuel' => if terminal st then st else run_from fuel' (step st)
  end.

(** Enough transitions for every unit: routing, the first translation,
    a review and a retranslation per retry, the last review,
    post-processing and packaging. *)
Definition budget : nat := 2 * max_retries cfg + 5.

Definition outcome_of (st : UnitState) : option Outcome :=
  match phase st with
  | Done res => Some (Completed res)
  | Failed err => Some (FailedUnit err)
  | _ => None
  end.

(** Modelled from the spec: [run(unit)] of §6 (not under [src/]): the
    outcome, or [None] if the loop stopped in a phase that is not
    terminal. *)
Definition run : option Outcome := outcome_of (run_from budget initial).

(** The states the unit can be in. *)
Inductive reachable : UnitState → Prop :=
| reachable_initial : reachable initial
| reachable_step st : reachable st → reachable (step st).

(** *** Invariants of the state machine *)

(** An upper bound on the transitions still to come. *)
Definition remaining (st : UnitState) : nat :=
  match phase st with
  | Routing => 2 * max_retries cfg + 5
  | Translating _ => 2 * max_retries cfg + 4
  | RetryTranslating _ _ => 2 * (max_retries cfg - retry_count st) + 4
  | Reviewing _ _ => 2 * (max_retries cfg - retry_count st) + 3
  | PostProcessing _ _ => 2
  | Packaging _ _ _ => 1
  | Done _ | Failed _ => 0
  end.

(** How the two counters relate in each phase. *)
Definition counters_ok (st : UnitState) : Prop :=
  retry_count st ≤ max_retries cfg
  ∧ match phase st with
    | Routing | Translating _ =>
        retry_count st = 0 ∧ translation_attempts st = 0
    | RetryTranslating _ _ =>
        translation_attempts st = retry_count st ∧ 0 < retry_count st
    | Reviewing _ _ | PostProcessing _ _ | Packaging _ _ _ =>
        translation_attempts st = S (retry_count st)
    | Done res =>
        translation_attempts st = S (retry_count st)
        ∧ retries (result_response res) = retry_count st
    | Failed _ => translation_attempts st ≤ S (retry_count st)
    end.

(** The report flags every must-protect literal that [t] lacks. *)
Definition flags_protected (t : text) (rep : QAReport) : Prop :=
  ∀ s, s ∈ unit_spans → must_protect s = true →
       occurs (span_value s) t = false →
       protected_tokens_intact rep = false
       ∧ ∃ i, i ∈ issues rep ∧ category i = protected_tokens
              ∧ severity i = critical.

(** The report flags every applied glossary target term that [t] lacks. *)
Definition flags_glossary (lang : LanguageCode) (t : text) (rep : QAReport)
    : Prop :=
  ∀ e, e ∈ unit_applied lang → occurs (target e) t = false →
       glossary_compliance rep = false
       ∧ ∃ i, i ∈ issues rep ∧ category i = glossary ∧ severity i = major.

Definition report_ok (lang : LanguageCode) (t : text) (rep : QAReport) : Prop :=
  flags_protected t rep ∧ flags_glossary lang t rep
  ∧ confidence_level rep = Some (confidence_level_of (confidence_score rep)).

(** What each phase holds. *)
Definition state_ok (st : UnitState) : Prop :=
  match phase st with
  | Routing | Translating _ | RetryTranslating _ _ => True
  | Reviewing r d =>
      draft_spans d = unit_spans
      ∧ draft_applied d = unit_applied (resolved_language r)
  | PostProcessing r rev =>
      report_ok (resolved_language r) (review_text rev) (review_report rev)
  | Packaging r final rep =>
      ∃ reviewed, final = normalize env (unit_target_language u) reviewed
                  ∧ report_ok (resolved_language r) reviewed rep
  | Done res =>
      let resp := result_response res in
      confidence resp = confidence_score (qa_report resp)
      ∧ ∃ reviewed,
          translation resp = normalize env (unit_target_language u) reviewed
          ∧ report_ok (source_language resp) reviewed (qa_report resp)
  | Failed err =>
      fatal (error_kind err) = true
      ∧ correlation_id err = new_correlation_id env
      ∧ (error_kind err = RouterValidationError ∧ error_stage err = Router
         ∨ error_kind err = ModelUnavailableError
           ∧ error_stage err ∈ [Router; Translator; Reviewer])
  end.

End Orchestrator.

End Pipeline.

(** ** A sample unit and sample collaborators *)

Module Samples.
Import Types Text Pipeline Database.

(** [Contact us at support@example.com for {{ticket_id}} details], into
    Arabic, with a glossary. *)
Definition sample_unit : TranslationUnit :=
  {| unit_id := "unit-1";
     unit_source_text :=
       txt "Contact us at support@example.com for {{ticket_id}} details";
     unit_source_language := auto;
     unit_target_language := ar;
     unit_style_preset := neutral;
     unit_glossary_id := Some "g1"%string;
     unit_protected_patterns := [] |}.

Definition sample_spans : list ProtectedSpan :=
  [ {| span_kind := email; span_value := txt "support@example.com";
       span_start := 14; span_end := 33; must_protect := true |};
    {| span_kind := placeholder; span_value := txt "{{ticket_id}}";
       span_start := 38; span_end := 51; must_protect := true |} ].

(** [[[PT0]]], [[[PT1]]], ... *)
Definition sample_token (i : nat) : text :=
  txt "[[PT" ++ txt (NilEmpty.string_of_uint (Nat.to_uint i)) ++ txt "]]".

Definition sample_entry : GlossaryEntry :=
  {| source := txt "Details"; target := txt "tafasil";
     case_sensitive := None; context := None |}.

(** U+200F, the right-to-left mark, in UTF-8. *)
Definition rlm : text := [ascii_of_nat 226; ascii_of_nat 128; ascii_of_nat 143].

(** A normaliser that marks the direction of right-to-left output. *)
Definition sample_normalize (lang : LanguageCode) (t : text) : text :=
  match lang with
  | ar => rlm ++ t
  | _ => t
  end.

(** Collaborators whose model copies the masked source as its draft, or,
    when [drops] is set, answers with a text without the placeholders;
    the Reviewer's model scores the first draft 0.60 and later ones 0.80,
    or every draft [always] when that is given. *)
Definition sample_env (drops : bool) (always : option Q) : Collaborators :=
  {| complete_router := λ _,
       Completion {| reply_language := Some en;
                     reply_content_type := Some general;
                     reply_formality := Some neutral_formality;
                     reply_strategy := "default" |};
     complete_translator := λ _ _ masked _ _,
       Completion (if drops then txt "Contact us for details" else masked);
     complete_reviewer := λ attempt _ draft,
       Completion {| reviewed_translation := draft;
                     reply_confidence :=
                       match always with
                       | Some q => q
                       | None => if attempt =? 1 then 60 # 100 else 80 # 100
                       end;
                     reply_issues := [];
                     reply_risky_spans := [];
                     reply_notes := None |};
     glossary_store := λ _ _ _, [sample_entry];
     template_store := λ _ _, [];
     extract_spans := λ _ _, sample_spans;
     placeholder_token := sample_token;
     normalize := sample_normalize;
     elapsed_ms := 1250;
     new_correlation_id := "c0ffee" |}.

(** Collaborators whose model-completion service is down. *)
Definition unavailable_env : Collaborators :=
  {| complete_router := λ _, Unavailable;
     complete_translator := λ _ _ _ _ _, Unavailable;
     complete_reviewer := λ _ _ _, Unavailable;
     glossary_store := λ _ _ _, [];
     template_store := λ _ _, [];
     extract_spans := λ _ _, [];
     placeholder_token := sample_token;
     normalize := λ _ t, t;
     elapsed_ms := 0;
     new_correlation_id := "c0ffee" |}.

(** A database with one glossary, one entry of it, and two expired jobs
    that used it, one of them still processing. *)
Definition sample_glossary_row : glossary_row :=
  {| glossary_user_id := None; glossary_name := "Technical Terms"%string;
     glossary_description := None; glossary_source_language := "en"%string;
     glossary_target_language := "ar"%string; glossary_is_global := Some false;
     glossary_version := Some 1%Z; glossary_created_at := None;
     glossary_updated_at := None |}.

Definition sample_entry_row : glossary_entry_row :=
  {| entry_glossary_id := 7%N; entry_source_term := "machine learning"%string;
     entry_target_term := "ML-ar"%string; entry_case_sensitive := Some false;
     entry_context := None; entry_created_at := None;
     entry_updated_at := None |}.

Definition sample_job (st : JobStatus) (expires : timestamptz) : job_row :=
  {| job_user_id := 1%N; job_job_type := text_job; job_status := st;
     job_source_language := "en"%string; job_target_language := "ar"%string;
     job_style_preset := Some "neutral"%string; job_input_text := None;
     job_output_text := None; job_file_name := None; job_file_path := None;
     job_output_file_path := None; job_glossary_id := Some 7%N;
     job_qa_report := None; job_confidence := None;
     job_error_message := None; job_retries := Some 0%Z;
     job_processing_time_ms := None; job_created_at := None;
     job_completed_at := None; job_expires_at := expires |}.

Definition sample_db : db :=
  {| jobs := {[ 1%N := sample_job completed 10%Z;
                2%N := sample_job processing 10%Z ]};
     glossaries := {[ 7%N := sample_glossary_row ]};
     glossary_entries := {[ 3%N := sample_entry_row ]} |}.

(** A source text that holds the text of the first placeholder itself,
    before its one span, the address at offsets 8 to 13. *)
Definition token_like_source : text := txt "[[PT0]] a@b.c".

Definition token_like_spans : list ProtectedSpan :=
  [ {| span_kind := email; span_value := txt "a@b.c";
       span_start := 8; span_end := 13; must_protect := true |} ].

(** U+061F, the Arabic question mark, in UTF-8. *)
Definition arabic_question_mark : text := [ascii_of_nat 216; ascii_of_nat 159].

(** A normaliser that writes the question marks of Arabic output as the
    Arabic question mark. *)
Definition question_mark_normalize (lang : LanguageCode) (t : text) : text :=
  match lang with
  | ar => flat_map (λ c, if Ascii.eqb c "?" then arabic_question_mark else [c]) t
  | _ => t
  end.

(** [Help? See https://example.com/?q=1], into Arabic, with a glossary. *)
Definition help_unit : TranslationUnit :=
  {| unit_id := "unit-2";
     unit_source_text := txt "Help? See https://example.com/?q=1";
     unit_source_language := en;
     unit_target_language := ar;
     unit_style_preset := neutral;
     unit_glossary_id := Some "g2"%string;
     unit_protected_patterns := [] |}.

Definition help_span : ProtectedSpan :=
  {| span_kind := url; span_value := txt "https://example.com/?q=1";
     span_start := 10; span_end := 34; must_protect := true |}.

Definition help_entry : GlossaryEntry :=
  {| source := txt "Help?"; target := txt "musaeada?";
     case_sensitive := None; context := None |}.

(** Collaborators whose model translates the unit above keeping the
    placeholder and using the glossary term, whose Reviewer accepts the
    draft as it is with confidence 0.90, and whose normaliser is the one
    above. *)
Definition help_env : Collaborators :=
  {| complete_router := λ _,
       Completion {| reply_language := Some en;
                     reply_content_type := Some general;
                     reply_formality := Some neutral_formality;
                     reply_strategy := "default" |};
     complete_translator := λ _ _ _ _ _,
       Completion (txt "musaeada? [[PT0]]");
     complete_reviewer := λ _ _ draft,
       Completion {| reviewed_translation := draft;
                     reply_confidence := 90 # 100;
                     reply_issues := [];
                     reply_risky_spans := [];
                     reply_notes := None |};
     glossary_store := λ _ _ _, [help_entry];
     template_store := λ _ _, [];
     extract_spans := λ _ _, [help_span];
     placeholder_token := sample_token;
     normalize := question_mark_normalize;
     elapsed_ms := 900;
     new_correlation_id := "c0ffee" |}.

(** A request that names no target language. *)
Definition request_without_target : TranslationRequest :=
  {| req_text := txt "Hello, how are you?";
     req_source_language := None;
     req_target_language := None;
     req_style_preset := None;
     req_glossary_id := None;
     req_protected_patterns := None |}.

End Samples.

(** ** JavaScript strings *)

Module JS.

(** A string is its sequence of UTF-16 code units. *)
Abbreviation jsstring := (list N).

(** An ASCII literal as a string. *)
Definition js (s : string) : jsstring := map N_of_ascii (list_ascii_of_string s).

(** The code units [String.prototype.trim] strips: WhiteSpace and
    LineTerminator of ECMAScript. *)
Definition whitespace : list N :=
  [9; 10; 11; 12; 13; 32; 160; 5760; 8192; 8193; 8194; 8195; 8196; 8197;
   8198; 8199; 8200; 8201; 8202; 8232; 8233; 8239; 8287; 12288; 65279]%N.

Definition is_whitespace (c : N) : bool := bool_decide (c ∈ whitespace).

Fixpoint trimStart (s : jsstring) : jsstring :=
  match s with
  | [] => []
  | c :: s' => if is_whitespace c then trimStart s' else s
  end.

Definition trimEnd (s : jsstring) : jsstring := rev (trimStart (rev s)).

(** [s.trim()]. *)
Definition trim (s : jsstring) : jsstring := trimEnd (trimStart s).

(** [s.split(sep)] for a separator of one code unit: never the empty
    array. *)
Fixpoint split (sep : N) (s : jsstring) : list jsstring :=
  match s with
  | [] => [[]]
  | c :: s' =>
      if (c =? sep)%N then [] :: split sep s'
      else match split sep s' with
           | w :: ws => (c :: w) :: ws
           | [] => [[c]]
           end
  end.

(** [hay.startsWith(needle)]. *)
Fixpoint startsWith (needle hay : jsstring) : bool :=
  match needle, hay with
  | [], _ => true
  | _ :: _, [] => false
  | c :: needle', d :: hay' => (c =? d)%N && startsWith needle' hay'
  end.

(** [hay.includes(needle)]. *)
Fixpoint includes (needle hay : jsstring) : bool :=
  startsWith needle hay ||
  match hay with
  | [] => false
  | _ :: hay' => includes needle hay'
  end.

(** [s || d] for strings: the empty string is falsy. *)
Definition or_else (s d : jsstring) : jsstring :=
  match s with
  | [] => d
  | _ :: _ => s
  end.

(** [prev.map((x, i) => i === index ? f(x) : x)]. *)
Definition map_at {A : Type} (index : nat) (f : A → A) (l : list A) : list A :=
  imap (λ i x, if (i =? index)%nat then f x else x) l.

(** What an awaited call gives: its value, or what it threw
    ([error instanceof Error] with its message, or something else). *)
Inductive Thrown :=
| ErrorWith (message : jsstring)
| NotAnError.

Inductive Awaited (A : Type) :=
| Resolved (a : A)
| Rejected (e : Thrown).
Arguments Resolved {A} a.
Arguments Rejected {A} e.

End JS.

(** ** The dashboard layout ([components/layout/dashboard-layout.tsx]) *)

Module DashboardLayout.
Import JS.

(** The fields of the signed-in user the layout reads; [user_features] is
    [None] when [user.features] is missing or not an array. *)
Record AuthUser := {
  user_username : option jsstring;
  user_display_name : option jsstring;
  user_email : option jsstring;
  user_features : option (list jsstring)
}.

Section Initials.
Context (toUpperCase : jsstring → jsstring).

(** [display_name.trim().split(" ").filter(Boolean)]. *)
Definition name_parts (display_name : jsstring) : list jsstring :=
  filter (λ p, p ≠ []) (split 32 (trim display_name)).

(** [parts.map((n) => n[0] || "").join("").toUpperCase().slice(0, 2) || "U"]. *)
Definition initials_of_parts (parts : list jsstring) : jsstring :=
  or_else (take 2 (toUpperCase (concat (map (take 1) parts)))) (js "U").

(** [getUserInitials]. *)
Definition getUserInitials (user : option AuthUser) : jsstring :=
  let from_username :=
    match user with
    | Some {| user_username := Some (c :: rest) |} =>
        toUpperCase (take 2 (c :: rest))
    | _ => js "U"
    end in
  match user with
  | Some {| user_display_name := Some (c :: rest) |} =>
      if (0 <? length (trim (c :: rest)))%nat
      then let parts := name_parts (c :: rest) in
           if (0 <? length parts)%nat then initials_of_parts parts
           else from_username
      else from_username
  | _ => from_username
  end.

End Initials.

Record NavItem := {
  nav_label : jsstring;
  nav_href : jsstring;
  nav_feature : option jsstring
}.

(** [const navItems], with the values of [Features] the shared type
    [Feature] gives. *)
Definition navItems : list NavItem :=
  [ {| nav_label := js "Translate"; nav_href := js "/translate";
       nav_feature := Some (js "TRANSLATE_TEXT") |};
    {| nav_label := js "Files"; nav_href := js "/files";
       nav_feature := Some (js "UPLOAD_FILES") |};
    {| nav_label := js "History"; nav_href := js "/history";
       nav_feature := Some (js "VIEW_HISTORY") |};
    {| nav_label := js "Glossary"; nav_href := js "/glossary";
       nav_feature := Some (js "USE_GLOSSARY") |};
    {| nav_label := js "Admin"; nav_href := js "/admin";
       nav_feature := Some (js "ADMIN_PANEL") |} ].

Section Navigation.
(** [hasFeature] of the auth store, which is not in the sources. *)
Context (hasFeature : jsstring → bool).

(** [safeHasFeature]. *)
Definition safeHasFeature (hasHydrated : bool) (user : option AuthUser)
    (feature : jsstring) : bool :=
  match hasHydrated, user with
  | true, Some {| user_features := Some _ |} => hasFeature feature
  | _, _ => false
  end.

(** [!item.feature || safeHasFeature(item.feature)]. *)
Definition nav_visible (hasHydrated : bool) (user : option AuthUser)
    (item : NavItem) : bool :=
  match nav_feature item with
  | None | Some [] => true
  | Some f => safeHasFeature hasHydrated user f
  end.

(** [visibleNavItems]. *)
Definition visibleNavItems (hasHydrated : bool) (user : option AuthUser)
    : list NavItem :=
  filter (λ item, nav_visible hasHydrated user item = true) navItems.

End Navigation.

End DashboardLayout.

(** ** The files page ([apps/web/src/app/files/page.tsx]) *)

Module FilesPage.
Import Types JS.

Inductive Icon := FileText | File | FileSpreadsheet | Mail.

(** [const fileIcons]. *)
Definition fileIcons (ext : jsstring) : option Icon :=
  if bool_decide (ext = js ".txt") then Some FileText
  else if bool_decide (ext = js ".docx") then Some File
  else if bool_decide (ext = js ".pdf") then Some FileSpreadsheet
  else if bool_decide (ext = js ".msg") then Some Mail
  else None.

Section Icons.
Context (toLowerCase : jsstring → jsstring).

(** [getFileIcon]: the extension is what follows the last dot. *)
Definition getFileIcon (filename : jsstring) : Icon :=
  let ext := js "." ++ match last (split 46 filename) with
                       | Some segment => toLowerCase segment
                       | None => js "undefined"
                       end in
  default File (fileIcons ext).

End Icons.

Inductive UploadStatus :=
  upload_pending | upload_uploading | upload_processing | upload_completed
| upload_failed.

Record FileInfo := {
  file_name : jsstring;
  file_size : N
}.

(** What [filesAPI.translate] and [filesAPI.getStatus] resolve to, as far
    as the page reads it. *)
Record FileTranslationResponse := {
  response_job_id : jsstring;
  response_status : JobStatus;
  response_error_message : option jsstring;
  response_confidence : option Q;
  response_download_ready : option bool;
  response_translated_file_name : option jsstring
}.

(** [interface UploadedFile]. *)
Record UploadedFile := {
  upload_file : FileInfo;
  upload_status : UploadStatus;
  upload_progress : Z;
  upload_result : option FileTranslationResponse;
  upload_error : option jsstring
}.

#[global] Instance UploadStatus_eq_dec : EqDecision UploadStatus.
Proof. solve_decision. Defined.

(** [onDrop]: the accepted files are appended as pending. *)
Definition onDrop (acceptedFiles : list FileInfo) (prev : list UploadedFile)
    : list UploadedFile :=
  prev ++ map (λ f, {| upload_file := f; upload_status := upload_pending;
                       upload_progress := 0; upload_result := None;
                       upload_error := None |}) acceptedFiles.

(** [removeFile]. *)
Definition removeFile (index : nat) (prev : list UploadedFile)
    : list UploadedFile :=
  omap id (imap (λ i f, if (i =? index)%nat then None else Some f) prev).

(** [{ ...f, status, progress }]. *)
Definition with_progress (st : UploadStatus) (p : Z) (f : UploadedFile)
    : UploadedFile :=
  {| upload_file := upload_file f; upload_status := st; upload_progress := p;
     upload_result := upload_result f; upload_error := upload_error f |}.

(** [{ ...f, progress }]. *)
Definition with_progress_only (p : Z) (f : UploadedFile) : UploadedFile :=
  with_progress (upload_status f) p f.

(** The last update of the [try] block. *)
Definition finished (final : FileTranslationResponse) (f : UploadedFile)
    : UploadedFile :=
  {| upload_file := upload_file f;
     upload_status := if bool_decide (response_status final = completed)
                      then upload_completed else upload_failed;
     upload_progress := 100;
     upload_result := Some final;
     upload_error := response_error_message final |}.

(** The update of the [catch] block. *)
Definition crashed (e : Thrown) (f : UploadedFile) : UploadedFile :=
  {| upload_file := upload_file f;
     upload_status := upload_failed;
     upload_progress := 100;
     upload_result := upload_result f;
     upload_error := Some match e with
                          | ErrorWith message => message
                          | NotAnError => js "Upload failed"
                          end |}.

Section Upload.
(** What [filesAPI.translate] gives, and what the [i]-th call of
    [filesAPI.getStatus] gives. *)
Context (translate_reply : Awaited FileTranslationResponse)
        (status_reply : nat → Awaited FileTranslationResponse).

(** The polling loop, from iteration [i], with [n] iterations left: the
    states it sets and how it ends ([last] is [finalResult] so far). *)
Fixpoint poll (n i : nat) (index : nat) (files : list UploadedFile)
    (last : FileTranslationResponse)
    : list (list UploadedFile) * Awaited FileTranslationResponse :=
  match n with
  | 0 => ([], Resolved last)
  | S n' =>
      match status_reply i with
      | Rejected e => ([], Rejected e)
      | Resolved r =>
          let files' :=
            map_at index
              (with_progress_only (50 + Z.min (Z.of_nat i * 2) 40)) files in
          if bool_decide (response_status r = completed
                          ∨ response_status r = failed)
          then ([files'], Resolved r)
          else let '(states, out) := poll n' (S i) index files' r in
               (files' :: states, out)
      end
  end.

(** [uploadFile(index)], run with no other update of [files] in between:
    the successive values of [files] it sets. *)
Definition uploadFile (index : nat) (files : list UploadedFile)
    : list (list UploadedFile) :=
  match files !! index with
  | None => []
  | Some uploadedFile =>
      if bool_decide (upload_status uploadedFile ≠ upload_pending) then []
      else
        let s1 := map_at index (with_progress upload_uploading 20) files in
        let s2 := map_at index (with_progress upload_processing 50) s1 in
        match translate_reply with
        | Rejected e => [s1; s2; map_at index (crashed e) s2]
        | Resolved result =>
            let '(states, out) :=
              if bool_decide (response_status result = processing)
              then poll 60 0 index s2 result
              else ([], Resolved result) in
            let current := List.last states s2 in
            [s1; s2] ++ states
            ++ [match out with
                | Resolved final => map_at index (finished final) current
                | Rejected e => map_at index (crashed e) current
                end]
        end
  end.

End Upload.

(** [s] is [files] with the file at [index] brought to status [st] and
    progress [p], and nothing else changed. *)
Definition updated_at (index : nat) (files : list UploadedFile)
    (st : UploadStatus) (p : Z) (s : list UploadedFile) : Prop :=
  length s = length files
  ∧ (∀ j, j ≠ index → s !! j = files !! j)
  ∧ ∃ f g, files !! index = Some f ∧ s !! index = Some g
           ∧ upload_file g = upload_file f
           ∧ upload_status g = st ∧ upload_progress g = p.

(** The progress of the file at [index] in each of the states. *)
Definition progress_trace (index : nat) (states : list (list UploadedFile))
    : list Z :=
  omap (λ s, upload_progress <$> s !! index) states.

End FilesPage.

(** ** The history page ([apps/web/src/app/history/page.tsx]) and the
    pagination it shares with the admin page *)

Module HistoryPage.

(** [Math.ceil(x)]. *)
Definition Math_ceil (x : Q) : Z := Qceiling x.

(** [const [limit] = useState(10)] (the admin page writes 10 in place). *)
Definition limit : positive := 10.

(** [const totalPages = Math.ceil(total / limit)].  The quotient is taken
    exactly; the floating-point division of the page agrees with it for
    every count below 2^50. *)
Definition totalPages (total : nat) : Z := Math_ceil (Z.of_nat total # limit).

(** [{totalPages > 1 && (...)}]: the pagination is rendered. *)
Definition pagination_shown (total : nat) : bool := (1 <? totalPages total)%Z.

(** [disabled={page === 1}]. *)
Definition previous_disabled (page : Z) : bool := (page =? 1)%Z.

(** [disabled={page === totalPages}]. *)
Definition next_disabled (total : nat) (page : Z) : bool :=
  (page =? totalPages total)%Z.

(** The pages the user can be on while [total] stays the same: page 1 at
    first (and after a new search), then a click on an enabled button. *)
Inductive page_reachable (total : nat) : Z → Prop :=
| page_first : page_reachable total 1
| page_previous page :
    page_reachable total page →
    pagination_shown total = true → previous_disabled page = false →
    page_reachable total (page - 1)
| page_next page :
    page_reachable total page →
    pagination_shown total = true → next_disabled total page = false →
    page_reachable total (page + 1).

End HistoryPage.

(** ** The glossary page ([GlossaryPage], which the sources hold after
    [HistoryPage] in [apps/web/src/app/history/page.tsx]) *)

Module GlossaryPage.
Import JS.

(** The fields of a glossary and of an entry the page reads. *)
Record Glossary := {
  glossary_id : jsstring;
  glossary_name : jsstring;
  glossary_entry_count : nat
}.

Record Entry := {
  entry_id : jsstring;
  source_term : jsstring;
  target_term : jsstring;
  entry_context : option jsstring
}.

#[global] Instance Glossary_eq_dec : EqDecision Glossary.
Proof. solve_decision. Defined.

Record State := {
  glossaries : list Glossary;
  selectedGlossary : option Glossary
}.

(** [handleDeleteGlossary(glossaryId)].  [rendered] is the state the
    handler was created with (what [glossaries] and [selectedGlossary]
    mean in its body), [current] the state when its updates are applied;
    [confirmed] is the answer to [confirm(...)] and [api] the outcome of
    [glossaryAPI.delete]. *)
Definition handleDeleteGlossary (rendered current : State) (confirmed : bool)
    (api : Awaited ()) (glossaryId : jsstring) : State :=
  if negb confirmed then current
  else match api with
       | Rejected _ => current
       | Resolved _ =>
           {| glossaries :=
                filter (λ g, glossary_id g ≠ glossaryId) (glossaries current);
              selectedGlossary :=
                match selectedGlossary rendered with
                | Some sel =>
                    if bool_decide (glossary_id sel = glossaryId)
                    then head (glossaries rendered)
                    else selectedGlossary current
                | None => selectedGlossary current
                end |}
       end.

Section Search.
Context (toLowerCase : jsstring → jsstring).

(** [const filteredEntries = entries.filter(...)]. *)
Definition filteredEntries (entries : list Entry) (searchTerm : jsstring)
    : list Entry :=
  filter (λ e,
            includes (toLowerCase searchTerm) (toLowerCase (source_term e))
            || includes (toLowerCase searchTerm) (toLowerCase (target_term e))
            = true) entries.

End Search.

End GlossaryPage.

(** ** The admin page ([apps/web/src/app/admin/page.tsx]) *)

Module AdminPage.
Import JS.

(** [toggleFeature(feature)], as the update of [roleFeatures]. *)
Definition toggleFeature (feature : jsstring) (prev : list jsstring)
    : list jsstring :=
  if bool_decide (feature ∈ prev)
  then filter (λ f, f ≠ feature) prev
  else prev ++ [feature].

End AdminPage.

(** ** The state of the translate page *)

Module TranslateState.
Import Types TranslatePage.

(** The [useState] cells of [TranslatePage] the handlers below touch. *)
Record State := {
  sourceText : text;
  targetLanguage : string;
  stylePreset : string;
  glossaryId : option string;
  result : option TranslationResponse;
  isLoading : bool
}.

Definition initial : State :=
  {| sourceText := [];
     targetLanguage := initial_targetLanguage;
     stylePreset := initial_stylePreset;
     glossaryId := None;
     result := None;
     isLoading := false |}.

Definition setSourceText (t : text) (st : State) : State :=
  {| sourceText := t; targetLanguage := targetLanguage st;
     stylePreset := stylePreset st; glossaryId := glossaryId st;
     result := result st; isLoading := isLoading st |}.

Definition setTargetLanguage (v : string) (st : State) : State :=
  {| sourceText := sourceText st; targetLanguage := v;
     stylePreset := stylePreset st; glossaryId := glossaryId st;
     result := result st; isLoading := isLoading st |}.

Definition setStylePreset (v : string) (st : State) : State :=
  {| sourceText := sourceText st; targetLanguage := targetLanguage st;
     stylePreset := v; glossaryId := glossaryId st;
     result := result st; isLoading := isLoading st |}.

(** [(v) => setGlossaryId(v === "none" ? undefined : v)]. *)
Definition selectGlossary (v : string) (st : State) : State :=
  {| sourceText := sourceText st; targetLanguage := targetLanguage st;
     stylePreset := stylePreset st;
     glossaryId := if bool_decide (v = "none"%string) then None else Some v;
     result := result st; isLoading := isLoading st |}.

(** [handleTranslate], once the call has settled: [reply] is the response,
    or [None] when the call threw.  A blank text only raises a toast. *)
Definition handleTranslate_settled (reply : option TranslationResponse)
    (st : State) : State :=
  match handleTranslate (sourceText st) (targetLanguage st) (stylePreset st)
          (glossaryId st) with
  | None => st
  | Some _ =>
      {| sourceText := sourceText st; targetLanguage := targetLanguage st;
         stylePreset := stylePreset st; glossaryId := glossaryId st;
         result := reply; isLoading := false |}
  end.

(** [handleSwapLanguages]. *)
Definition handleSwapLanguages (st : State) : State :=
  match result st with
  | Some {| translation := c :: rest |} =>
      {| sourceText := c :: rest;
         targetLanguage := if bool_decide (targetLanguage st = "ar"%string)
                           then "en"%string else "ar"%string;
         stylePreset := stylePreset st; glossaryId := glossaryId st;
         result := None; isLoading := isLoading st |}
  | _ => st
  end.

(** The states of the page: the selects only give the values of their
    items. *)
Inductive reachable : State → Prop :=
| reach_initial : reachable initial
| reach_type t st : reachable st → reachable (setSourceText t st)
| reach_target v st :
    reachable st → v ∈ map language_value targetLanguages →
    reachable (setTargetLanguage v st)
| reach_style v st :
    reachable st → v ∈ offered_style_presets →
    reachable (setStylePreset v st)
| reach_glossary v st : reachable st → reachable (selectGlossary v st)
| reach_translate reply st :
    reachable st → reachable (handleTranslate_settled reply st)
| reach_swap st : reachable st → reachable (handleSwapLanguages st).

End TranslateState.

(** ** The whole schema ([deploy/postgres/init.sql]) and its referential
    actions *)

Module Schema.
Import Types Database.

(** A row of [roles], without [id]. *)
Record role_row := {
  role_name : string;
  role_description : option string;
  role_is_default : option bool;
  role_created_at : option timestamptz;
  role_updated_at : option timestamptz
}.

(** A row of [role_features], without [id]. *)
Record role_feature_row := {
  feature_role_id : UUID;
  feature_name : string;
  feature_enabled : option bool;
  feature_created_at : option timestamptz
}.

(** A row of [users], without [id]. *)
Record user_row := {
  user_username : string;
  user_email : option string;
  user_display_name : option string;
  user_role_id : UUID;
  user_is_active : option bool;
  user_created_at : option timestamptz;
  user_updated_at : option timestamptz;
  user_last_login : option timestamptz
}.

(** A row of [audit_logs], without [id]. *)
Record audit_log_row := {
  audit_user_id : option UUID;
  audit_action : string;
  audit_resource : option string;
  audit_resource_id : option UUID;
  audit_details : option string;
  audit_ip_address : option string;
  audit_user_agent : option string;
  audit_correlation_id : option UUID;
  audit_created_at : option timestamptz
}.

Record database := {
  roles : gmap UUID role_row;
  role_features : gmap UUID role_feature_row;
  users : gmap UUID user_row;
  jobs : gmap UUID job_row;
  glossaries : gmap UUID glossary_row;
  glossary_entries : gmap UUID glossary_entry_row;
  audit_logs : gmap UUID audit_log_row
}.

(** [ON DELETE SET NULL] of [glossaries.user_id], an update of the row, on
    which the trigger [update_glossaries_updated_at] sets [updated_at]. *)
Definition orphan_glossary (now : timestamptz) (uid : UUID) (g : glossary_row)
    : glossary_row :=
  if bool_decide (glossary_user_id g = Some uid)
  then {| glossary_user_id := None;
          glossary_name := glossary_name g;
          glossary_description := glossary_description g;
          glossary_source_language := glossary_source_language g;
          glossary_target_language := glossary_target_language g;
          glossary_is_global := glossary_is_global g;
          glossary_version := glossary_version g;
          glossary_created_at := glossary_created_at g;
          glossary_updated_at := Some now |}
  else g.

(** [ON DELETE SET NULL] of [audit_logs.user_id]; the table has no
    trigger. *)
Definition orphan_audit_log (uid : UUID) (a : audit_log_row) : audit_log_row :=
  if bool_decide (audit_user_id a = Some uid)
  then {| audit_user_id := None;
          audit_action := audit_action a;
          audit_resource := audit_resource a;
          audit_resource_id := audit_resource_id a;
          audit_details := audit_details a;
          audit_ip_address := audit_ip_address a;
          audit_user_agent := audit_user_agent a;
          audit_correlation_id := audit_correlation_id a;
          audit_created_at := audit_created_at a |}
  else a.

(** [DELETE FROM users WHERE id = uid] at [NOW() = now]: the user's jobs
    go with it ([ON DELETE CASCADE]); its glossaries and audit logs stay,
    without owner ([ON DELETE SET NULL]). *)
Definition delete_user (now : timestamptz) (uid : UUID) (d : database)
    : database :=
  match users d !! uid with
  | None => d
  | Some _ =>
      {| roles := roles d;
         role_features := role_features d;
         users := delete uid (users d);
         jobs := filter (λ kr, job_user_id kr.2 ≠ uid) (jobs d);
         glossaries := orphan_glossary now uid <$> glossaries d;
         glossary_entries := glossary_entries d;
         audit_logs := orphan_audit_log uid <$> audit_logs d |}
  end.

Inductive sql_error := foreign_key_violation | unique_violation.

(** [DELETE FROM roles WHERE id = rid]: refused while a user has the role
    ([users.role_id] references [roles(id)] with no action); otherwise the
    role's features go with it ([ON DELETE CASCADE]). *)
Definition delete_role (rid : UUID) (d : database) : sql_error + database :=
  match roles d !! rid with
  | None => inr d
  | Some _ =>
      if bool_decide (map_Exists (λ _ u, user_role_id u = rid) (users d))
      then inl foreign_key_violation
      else inr {| roles := delete rid (roles d);
                  role_features :=
                    filter (λ kr, feature_role_id kr.2 ≠ rid) (role_features d);
                  users := users d;
                  jobs := jobs d;
                  glossaries := glossaries d;
                  glossary_entries := glossary_entries d;
                  audit_logs := audit_logs d |}
  end.

(** The references the schema declares. *)
Definition references_hold (d : database) : Prop :=
  (∀ k f, role_features d !! k = Some f → is_Some (roles d !! feature_role_id f))
  ∧ (∀ k u, users d !! k = Some u → is_Some (roles d !! user_role_id u))
  ∧ (∀ k j, jobs d !! k = Some j → is_Some (users d !! job_user_id j))
  ∧ (∀ k g uid, glossaries d !! k = Some g → glossary_user_id g = Some uid →
       is_Some (users d !! uid))
  ∧ (∀ k e, glossary_entries d !! k = Some e →
       is_Some (glossaries d !! entry_glossary_id e))
  ∧ (∀ k a uid, audit_logs d !! k = Some a → audit_user_id a = Some uid →
       is_Some (users d !! uid)).

End Schema.

(** ** Sample values for the pages and the schema *)

Module PageSamples.
Import Types JS.

(** Upper- and lower-casing of the ASCII letters, which is what
    [toUpperCase] and [toLowerCase] do on ASCII strings. *)
Definition ascii_upper (s : jsstring) : jsstring :=
  map (λ c, if ((97 <=? c) && (c <=? 122))%N then (c - 32)%N else c) s.

Definition ascii_lower (s : jsstring) : jsstring :=
  map (λ c, if ((65 <=? c) && (c <=? 90))%N then (c + 32)%N else c) s.

Definition sample_role : Schema.role_row :=
  {| Schema.role_name := "translator"%string;
     Schema.role_description := None;
     Schema.role_is_default := Some true;
     Schema.role_created_at := None;
     Schema.role_updated_at := None |}.

Definition sample_user : Schema.user_row :=
  {| Schema.user_username := "amal"%string;
     Schema.user_email := None;
     Schema.user_display_name := None;
     Schema.user_role_id := 100%N;
     Schema.user_is_active := Some true;
     Schema.user_created_at := None;
     Schema.user_updated_at := None;
     Schema.user_last_login := None |}.

(** The jobs, glossary and entry of [sample_db] with the user the jobs
    belong to and the user's role. *)
Definition sample_database : Schema.database :=
  {| Schema.roles := {[ 100%N := sample_role ]};
     Schema.role_features := ∅;
     Schema.users := {[ 1%N := sample_user ]};
     Schema.jobs := Database.jobs Samples.sample_db;
     Schema.glossaries := Database.glossaries Samples.sample_db;
     Schema.glossary_entries := Database.glossary_entries Samples.sample_db;
     Schema.audit_logs := ∅ |}.

Definition legal_glossary : GlossaryPage.Glossary :=
  {| GlossaryPage.glossary_id := js "g1";
     GlossaryPage.glossary_name := js "Legal";
     GlossaryPage.glossary_entry_count := 2 |}.

Definition medical_glossary : GlossaryPage.Glossary :=
  {| GlossaryPage.glossary_id := js "g2";
     GlossaryPage.glossary_name := js "Medical";
     GlossaryPage.glossary_entry_count := 0 |}.

(** The glossary page with two glossaries, the first one selected. *)
Definition sample_glossary_state : GlossaryPage.State :=
  {| GlossaryPage.glossaries := [legal_glossary; medical_glossary];
     GlossaryPage.selectedGlossary := Some legal_glossary |}.

Definition sample_entries : list GlossaryPage.Entry :=
  [ {| GlossaryPage.entry_id := js "e1";
       GlossaryPage.source_term := js "Contract";
       GlossaryPage.target_term := js "eaqd";
       GlossaryPage.entry_context := None |};
    {| GlossaryPage.entry_id := js "e2";
       GlossaryPage.source_term := js "Court";
       GlossaryPage.target_term := js "mahkama";
       GlossaryPage.entry_context := None |} ].

Definition sample_auth_user : DashboardLayout.AuthUser :=
  {| DashboardLayout.user_username := Some (js "amal");
     DashboardLayout.user_display_name := Some (js " amal  haddad ");
     DashboardLayout.user_email := None;
     DashboardLayout.user_features := Some [js "TRANSLATE_TEXT"] |}.

Definition sample_file : FilesPage.UploadedFile :=
  {| FilesPage.upload_file :=
       {| FilesPage.file_name := js "report.PDF";
          FilesPage.file_size := 2048 |};
     FilesPage.upload_status := FilesPage.upload_pending;
     FilesPage.upload_progress := 0;
     FilesPage.upload_result := None;
     FilesPage.upload_error := None |}.

Definition sample_response (st : JobStatus) : FilesPage.FileTranslationResponse :=
  {| FilesPage.response_job_id := js "job-1";
     FilesPage.response_status := st;
     FilesPage.response_error_message := None;
     FilesPage.response_confidence := None;
     FilesPage.response_download_ready := None;
     FilesPage.response_translated_file_name := None |}.

End PageSamples.

(** * Properties *)

(** ** The database *)

Module DatabaseFacts.
Import Types Database Samples.

Lemma cleanup_partitions_jobs (now : timestamptz) (m : gmap UUID job_row) :
  size m
  = size (filter (λ kr, cleanup_condition now kr.2) m)
    + size (filter (λ kr, ¬ cleanup_condition now kr.2) m).
Proof.
  rewrite <- map_size_disj_union
    by apply (map_disjoint_filter_complement (λ kr, cleanup_condition now kr.2)).
  by rewrite (map_filter_union_complement (λ kr, cleanup_condition now kr.2)).
Qed.

Lemma cleanup_lookup (now : timestamptz) (d : db) (id : UUID) (row : job_row) :
  jobs (cleanup_expired_jobs now d).1 !! id = Some row
  ↔ jobs d !! id = Some row ∧ ¬ cleanup_condition now row.
Proof. unfold cleanup_expired_jobs; simpl. by rewrite map_lookup_filter_Some. Qed.

(** C9: [cleanup_expired_jobs] deletes a job exactly when its [expires_at]
    is strictly before [NOW()] and its status is not ['processing']; the
    rows it keeps are unchanged and no row appears; a processing job
    survives even when expired; the returned number is the number of rows
    deleted; the other tables are untouched. *)
Theorem cleanup_expired_jobs_deletes_exactly (now : timestamptz) (d : db) :
  let d' := (cleanup_expired_jobs now d).1 in
  let deleted_count := (cleanup_expired_jobs now d).2 in
  (∀ id row, jobs d !! id = Some row →
     (jobs d' !! id = None
      ↔ (job_expires_at row < now)%Z ∧ job_status row ≠ processing))
  ∧ (∀ id row, jobs d' !! id = Some row → jobs d !! id = Some row)
  ∧ (∀ id row, jobs d !! id = Some row → job_status row = processing →
       jobs d' !! id = Some row)
  ∧ (deleted_count = Z.of_nat (size (jobs d)) - Z.of_nat (size (jobs d')))%Z
  ∧ deleted_count
    = Z.of_nat (size (filter (λ kr : UUID * job_row,
                                jobs d' !! kr.1 = None) (jobs d)))
  ∧ glossaries d' = glossaries d
  ∧ glossary_entries d' = glossary_entries d.
Proof.
  intros d' n.
  split; [|split; [|split; [|split; [|split; [|split]]]]].
  - intros id row Hrow. split.
    + intros Hnone.
      destruct (decide (cleanup_condition now row)) as [Hc|Hc]; [exact Hc|].
      assert (jobs d' !! id = Some row) as Hsome by (apply cleanup_lookup; done).
      congruence.
    + intros Hc. destruct (jobs d' !! id) as [row'|] eqn:E; [|done].
      apply cleanup_lookup in E as [E Hn]. exfalso. apply Hn.
      assert (row' = row) by congruence. by subst.
  - intros id row Hk. by apply cleanup_lookup in Hk as [? _].
  - intros id row Hrow Hp. apply cleanup_lookup. split; [done|].
    intros [_ Hn]. done.
  - subst n d'. unfold cleanup_expired_jobs; simpl.
    rewrite (cleanup_partitions_jobs now (jobs d)). lia.
  - subst n d'. unfold cleanup_expired_jobs; simpl. f_equal. f_equal.
    apply map_filter_ext. intros id row Hrow. simpl.
    rewrite map_lookup_filter_None. split.
    + intros Hc. right. intros row' Hrow'. simpl. intros Hn.
      assert (row' = row) by congruence. subst. done.
    + intros [Hn|Hn]; [congruence|].
      destruct (decide (cleanup_condition now row)) as [Hc|Hc]; [done|].
      exfalso. by apply (Hn row Hrow).
  - done.
  - done.
Qed.

Lemma cleanup_expired_jobs_deletes_exactly_witness :
  jobs (cleanup_expired_jobs 20%Z sample_db).1 !! 1%N = None
  ∧ jobs (cleanup_expired_jobs 20%Z sample_db).1 !! 2%N
    = Some (sample_job processing 10%Z).
Proof.
  destruct (cleanup_expired_jobs_deletes_exactly 20%Z sample_db)
    as (Hdel & _ & Hkeep & _).
  split.
  - apply (Hdel 1%N (sample_job completed 10%Z)); [reflexivity|].
    split; [reflexivity|discriminate].
  - apply (Hkeep 2%N (sample_job processing 10%Z)); reflexivity.
Defined.

(** Deleting a glossary never leaves an entry behind that references a
    missing glossary: if every entry referenced an existing glossary
    before, every remaining entry does so afterwards. *)
Lemma delete_glossary_keeps_reference (gid : UUID) (d : db) :
  entries_reference_glossaries d →
  entries_reference_glossaries (delete_glossary gid d).
Proof.
  intros Hfk k e. unfold delete_glossary.
  destruct (glossaries d !! gid) as [g|] eqn:Hg; [|apply Hfk].
  simpl. rewrite map_lookup_filter_Some. intros [He Hne]. simpl in Hne.
  rewrite lookup_delete_ne by done. by apply (Hfk k).
Qed.

(** C10: deleting a glossary removes the glossary and exactly the
    [glossary_entries] rows that reference it, and leaves the [jobs] table
    as it was: a job whose [glossary_id] is the deleted glossary keeps
    that value and now references no glossary. *)
Theorem delete_glossary_cascades_not_to_jobs (gid : UUID) (g : glossary_row) (d : db) :
  glossaries d !! gid = Some g →
  let d' := delete_glossary gid d in
  glossaries d' !! gid = None
  ∧ (∀ other, other ≠ gid → glossaries d' !! other = glossaries d !! other)
  ∧ (∀ k e, glossary_entries d' !! k = Some e
            ↔ glossary_entries d !! k = Some e ∧ entry_glossary_id e ≠ gid)
  ∧ jobs d' = jobs d
  ∧ (∀ k j, jobs d !! k = Some j → job_glossary_id j = Some gid →
       jobs d' !! k = Some j ∧ glossaries d' !! gid = None).
Proof.
  intros Hg d'. subst d'. unfold delete_glossary. rewrite Hg. simpl.
  split; [|split; [|split; [|split]]].
  - apply lookup_delete_eq.
  - intros other Hne. by rewrite lookup_delete_ne.
  - intros k e. rewrite map_lookup_filter_Some. simpl. tauto.
  - done.
  - intros k j Hj _. split; [done|]. apply lookup_delete_eq.
Qed.

Lemma delete_glossary_cascades_not_to_jobs_witness :
  glossaries sample_db !! 7%N = Some sample_glossary_row
  ∧ jobs (delete_glossary 7%N sample_db) !! 1%N = Some (sample_job completed 10%Z)
  ∧ glossaries (delete_glossary 7%N sample_db) !! 7%N = None.
Proof.
  assert (glossaries sample_db !! 7%N = Some sample_glossary_row) as H
    by reflexivity.
  split; [exact H|].
  destruct (delete_glossary_cascades_not_to_jobs 7%N sample_glossary_row
              sample_db H)
    as (_ & _ & _ & _ & Hjobs).
  apply (Hjobs 1%N (sample_job completed 10%Z)); reflexivity.
Defined.

(** The expired processing job of [sample_db] is kept, the expired
    completed one is deleted, and 1 is returned. *)
Example cleanup_sample :
  jobs (cleanup_expired_jobs 20%Z sample_db).1 !! 1%N = None
  ∧ jobs (cleanup_expired_jobs 20%Z sample_db).1 !! 2%N
    = Some (sample_job processing 10%Z)
  ∧ (cleanup_expired_jobs 20%Z sample_db).2 = 1%Z.
Proof. vm_compute. done. Qed.

End DatabaseFacts.

(** ** Texts *)

Module TextFacts.
Import Text.

Lemma starts_with_app (tok rest : text) : starts_with tok (tok ++ rest) = true.
Proof.
  induction tok as [|c tok IH]; simpl; [done|].
  by rewrite Ascii.eqb_refl, IH.
Qed.

Lemma occurs_cons (needle : text) (c : ascii) (hay : text) :
  occurs needle hay = true → occurs needle (c :: hay) = true.
Proof. intros H. simpl. rewrite H. apply orb_true_r. Qed.

Lemma occurs_app_r (needle pre hay : text) :
  occurs needle hay = true → occurs needle (pre ++ hay) = true.
Proof. induction pre as [|c pre IH]; simpl; [done|]. intros H. rewrite (IH H). apply orb_true_r. Qed.

Lemma replace_first_unfold (tok lit hay : text) :
  replace_first tok lit hay
  = if starts_with tok hay then Some (lit ++ skipn (length tok) hay)
    else match hay with
         | [] => None
         | c :: hay' => option_map (cons c) (replace_first tok lit hay')
         end.
Proof. destruct hay; reflexivity. Qed.

Lemma starts_with_prefix (tok a rest : text) :
  length tok ≤ length a → starts_with tok (a ++ rest) = starts_with tok a.
Proof.
  revert a. induction tok as [|c tok IH]; intros a Hlen; [by destruct a|].
  destruct a as [|x a]; [simpl in Hlen; lia|].
  simpl in *. by rewrite IH by lia.
Qed.

(** A token that does not start in [a], continued by all of the token but
    its last character, does not start there when the whole token
    follows. *)
Lemma starts_with_astride (tok a rest : text) :
  a ≠ [] → starts_with tok (a ++ removelast tok) = false →
  starts_with tok (a ++ tok ++ rest) = false.
Proof.
  intros Ha H. destruct (decide (tok = [])) as [->|Hne]; [by destruct a|].
  pose proof (app_removelast_last "000"%char Hne) as E.
  assert (length tok = length (removelast tok) + 1) as Hlen
    by (rewrite E at 1; by rewrite length_app).
  replace (a ++ tok ++ rest)
    with ((a ++ removelast tok) ++ [List.last tok "000"%char] ++ rest).
  - rewrite starts_with_prefix; [done|].
    rewrite length_app. destruct a; [done|simpl; lia].
  - rewrite <- app_assoc. f_equal. rewrite app_assoc. f_equal. by rewrite <- E.
Qed.

(** The first occurrence of a token is where it was put, when the token
    occurs neither in the text before it nor astride the two. *)
Lemma replace_first_at (tok lit before rest : text) :
  occurs tok (before ++ removelast tok) = false →
  replace_first tok lit (before ++ tok ++ rest) = Some (before ++ lit ++ rest).
Proof.
  induction before as [|x before IH]; intros Hocc; rewrite replace_first_unfold.
  - rewrite app_nil_l, starts_with_app. by rewrite drop_app_length.
  - rewrite starts_with_astride; [|done|].
    + rewrite <- app_comm_cons. rewrite IH; [done|].
      rewrite <- app_comm_cons in Hocc. cbn [occurs] in Hocc.
      by apply orb_false_iff in Hocc as [_ ?].
    + rewrite <- app_comm_cons in Hocc |- *. cbn [occurs] in Hocc.
      by apply orb_false_iff in Hocc as [? _].
Qed.

Lemma take_slice (i j : nat) (t : text) :
  i ≤ j → firstn i t ++ slice i j t = firstn j t.
Proof.
  intros Hij. unfold slice. rewrite take_take_drop. f_equal. lia.
Qed.

Lemma slice_slice_skipn (i j : nat) (t : text) :
  i ≤ j → j ≤ length t → slice i j t ++ skipn j t = skipn i t.
Proof.
  intros Hij Hj. unfold slice.
  replace (skipn j t) with (skipn (j - i) (skipn i t)).
  - apply firstn_skipn.
  - rewrite drop_drop. f_equal. lia.
Qed.

End TextFacts.

(** ** Placeholders *)

Module PlaceholderFacts.
Import Types Text TextFacts Pipeline.

Lemma spans_wf_cons (cursor : nat) (t : text) (s : ProtectedSpan)
    (rest : list ProtectedSpan) :
  spans_wf cursor t (s :: rest) = true
  ↔ cursor ≤ span_start s ∧ span_start s ≤ span_end s
    ∧ span_end s ≤ length t
    ∧ span_value s = slice (span_start s) (span_end s) t
    ∧ spans_wf (span_end s) t rest = true.
Proof.
  cbn [spans_wf]. rewrite !andb_true_iff, !Nat.leb_le.
  unfold text_eqb. rewrite bool_decide_eq_true. tauto.
Qed.

Lemma spans_wf_earlier (cursor cursor' : nat) (t : text)
    (spans : list ProtectedSpan) :
  cursor' ≤ cursor → spans_wf cursor t spans = true →
  spans_wf cursor' t spans = true.
Proof.
  destruct spans as [|s rest]; [done|].
  rewrite !spans_wf_cons. intros Hle (H1 & H2 & H3 & H4 & H5).
  repeat split; try done. lia.
Qed.

(** Restoring a draft in which every placeholder stands untouched, and
    first where it stands, puts each span's literal where its placeholder
    stood. *)
Lemma restore_interleave (token : nat → text) (gap : nat → text)
    (tail : text) (spans : list ProtectedSpan) :
  ∀ idx before,
    draft_fresh token gap idx before spans = true →
    restore_from token idx
      (before ++ interleave (λ i _, token i) gap idx spans tail) spans
    = (before ++ interleave (λ _ s, span_value s) gap idx spans tail, []).
Proof.
  induction spans as [|s rest IH]; intros idx before Hfresh; [reflexivity|].
  cbn [restore_from interleave draft_fresh] in *.
  destruct (must_protect s) eqn:Hp; [|by apply IH].
  apply andb_true_iff in Hfresh as [Hhere Hrest].
  apply negb_true_iff in Hhere.
  rewrite (app_assoc before (gap idx)).
  rewrite replace_first_at by (by rewrite <- app_assoc).
  etrans; [|etrans; [exact (IH (S idx) _ Hrest)|]].
  - f_equal. by rewrite <- !app_assoc.
  - by rewrite <- !app_assoc.
Qed.

(** With no interference at all, restoring the masked source gives the
    source back. *)
Lemma restore_mask (token : nat → text) (t : text)
    (spans : list ProtectedSpan) :
  ∀ cursor idx,
    spans_wf cursor t spans = true →
    tokens_fresh token idx t spans = true →
    restore_from token idx
      (firstn cursor t ++ mask_from token cursor idx t spans) spans
    = (t, []).
Proof.
  induction spans as [|s rest IH]; intros cursor idx Hwf Hfresh.
  - cbn. by rewrite firstn_skipn.
  - apply spans_wf_cons in Hwf as (H1 & H2 & H3 & Hv & Hrest).
    cbn [restore_from mask_from tokens_fresh] in *.
    apply andb_true_iff in Hfresh as [Hhere Hfresh].
    destruct (must_protect s) eqn:Hp.
    + apply negb_true_iff in Hhere.
      rewrite app_assoc, take_slice by done.
      rewrite replace_first_at by done.
      rewrite Hv, app_assoc, take_slice by done.
      by apply IH.
    + apply IH; [|done].
      by apply (spans_wf_earlier (span_end s)); [lia|].
Qed.


End PlaceholderFacts.

(** ** Reviewer and Post-Processor *)

Module ReviewFacts.
Import Types Text TextFacts Pipeline.

(** Deduplication never drops the key of a verified issue, and the issue
    kept for it is a verified one. *)
Lemma dedup_keeps_verified (verified reported : list QAIssue) :
  ∀ seen i, i ∈ verified → issue_key i ∉ seen →
    ∃ i', i' ∈ verified ∧ issue_key i' = issue_key i
          ∧ i' ∈ dedup_issues seen (verified ++ reported).
Proof.
  induction verified as [|x v IH]; intros seen i Hi Hseen.
  - by apply elem_of_nil in Hi.
  - cbn [app dedup_issues]. case_bool_decide as Hx.
    + apply elem_of_cons in Hi as [->|Hi]; [done|].
      destruct (IH seen i Hi Hseen) as (i' & Hv & Hk & Hin).
      exists i'. split; [by right|done].
    + destruct (decide (issue_key x = issue_key i)) as [E|E].
      * exists x. split; [by left|]. split; [done|by left].
      * apply elem_of_cons in Hi as [->|Hi]; [done|].
        destruct (IH (issue_key x :: seen) i Hi) as (i' & Hv & Hk & Hin).
        { intros [?|?]%elem_of_cons; [congruence|done]. }
        exists i'. split; [by right|]. split; [done|by right].
Qed.

Lemma merge_keeps_verified (verified reported : list QAIssue) (i : QAIssue) :
  i ∈ verified →
  ∃ i', i' ∈ verified ∧ issue_key i' = issue_key i
        ∧ i' ∈ merge_issues verified reported.
Proof.
  intros Hi. apply (dedup_keeps_verified verified reported [] i Hi).
  apply not_elem_of_nil.
Qed.

(** Every verified issue is critical when it is about protected tokens
    and major when it is about the glossary. *)
Lemma verified_issue_severity (lost : list ProtectedSpan)
    (unmet : list GlossaryEntry) (i : QAIssue) :
  i ∈ map protected_issue lost ++ map glossary_issue unmet →
  (category i = protected_tokens → severity i = critical)
  ∧ (category i = glossary → severity i = major).
Proof.
  intros [Hi|Hi]%elem_of_app.
  - apply list_elem_of_fmap in Hi as (s & -> & _). by split.
  - apply list_elem_of_fmap in Hi as (e & -> & _). by split.
Qed.

Section Assemble.
Context (src : text) (spans : list ProtectedSpan)
        (applied : list GlossaryEntry) (reply : ReviewerReply).

Let report := assemble_report src spans applied reply.
Let final := reviewed_translation reply.

Lemma assemble_report_protected (s : ProtectedSpan) :
  s ∈ spans → must_protect s = true → occurs (span_value s) final = false →
  protected_tokens_intact report = false
  ∧ ∃ i, i ∈ issues report ∧ category i = protected_tokens
         ∧ severity i = critical.
Proof using Type.
  intros Hs Hp Hocc.
  assert (s ∈ missing_protected spans final) as Hlost
    by (unfold missing_protected; apply list_elem_of_filter; done).
  split.
  - subst report. unfold assemble_report. cbn [protected_tokens_intact].
    apply bool_decide_eq_false. intros E. fold final in E.
    rewrite E in Hlost. by apply elem_of_nil in Hlost.
  - set (verified := map protected_issue (missing_protected spans final)
                     ++ map glossary_issue (missing_glossary applied final)).
    destruct (merge_keeps_verified verified (reply_issues reply)
                (protected_issue s)) as (i & Hv & Hk & Hin).
    { apply elem_of_app. left. apply list_elem_of_fmap. by exists s. }
    exists i. split; [exact Hin|].
    assert (category i = protected_tokens) as Hc
      by (unfold issue_key in Hk; simpl in Hk; congruence).
    split; [done|].
    by apply (verified_issue_severity _ _ i Hv).
Qed.

Lemma assemble_report_glossary (e : GlossaryEntry) :
  e ∈ applied → occurs (target e) final = false →
  glossary_compliance report = false
  ∧ ∃ i, i ∈ issues report ∧ category i = glossary ∧ severity i = major.
Proof using Type.
  intros He Hocc.
  assert (e ∈ missing_glossary applied final) as Hunmet
    by (unfold missing_glossary; apply list_elem_of_filter; done).
  split.
  - subst report. unfold assemble_report. cbn [glossary_compliance].
    apply bool_decide_eq_false. intros E. fold final in E.
    rewrite E in Hunmet. by apply elem_of_nil in Hunmet.
  - set (verified := map protected_issue (missing_protected spans final)
                     ++ map glossary_issue (missing_glossary applied final)).
    destruct (merge_keeps_verified verified (reply_issues reply)
                (glossary_issue e)) as (i & Hv & Hk & Hin).
    { apply elem_of_app. right. apply list_elem_of_fmap. by exists e. }
    exists i. split; [exact Hin|].
    assert (category i = glossary) as Hc
      by (unfold issue_key in Hk; simpl in Hk; congruence).
    split; [done|].
    by apply (verified_issue_severity _ _ i Hv).
Qed.

End Assemble.

(** The Post-Processor hands on the normalised text, keeps the score, the
    level and the two flags, and only adds to the issues. *)
Lemma post_process_spec (normalise : text → text) (src : text)
    (rev : ReviewOutput) :
  let out := post_process normalise src rev in
  out.1 = normalise (review_text rev)
  ∧ confidence_score out.2 = confidence_score (review_report rev)
  ∧ confidence_level out.2 = confidence_level (review_report rev)
  ∧ glossary_compliance out.2 = glossary_compliance (review_report rev)
  ∧ protected_tokens_intact out.2 = protected_tokens_intact (review_report rev)
  ∧ (∀ i, i ∈ issues (review_report rev) → i ∈ issues out.2).
Proof.
  unfold post_process. cbv zeta. case_bool_decide as E; cbn [fst snd].
  - repeat split; try done.
  - unfold amend_report; cbn. repeat split; try done.
    intros i Hi. apply elem_of_app. by left.
Qed.

End ReviewFacts.

(** ** Orchestrator *)

Module OrchestratorFacts.
Import Types Text TextFacts Pipeline ReviewFacts.

Lemma Qltb_lt (a b : Q) : Qltb a b = true ↔ (a < b)%Q.
Proof.
  unfold Qltb. rewrite negb_true_iff. split.
  - intros H. apply Qnot_le_lt. intros Hle.
    apply Qle_bool_iff in Hle. congruence.
  - intros H. destruct (Qle_bool b a) eqn:E; [|done].
    apply Qle_bool_iff in E. exfalso. by apply (Qlt_not_le a b).
Qed.

Lemma Qle_bool_false (a b : Q) : Qle_bool a b = false ↔ (b < a)%Q.
Proof. rewrite <- Qltb_lt. unfold Qltb. by rewrite negb_true_iff. Qed.

Lemma Qltb_ge (a b : Q) : Qltb a b = false ↔ (b <= a)%Q.
Proof.
  unfold Qltb. rewrite negb_false_iff. apply Qle_bool_iff.
Qed.

Lemma needs_retry_true (cfg : Config) (score : Q) (n : nat) :
  needs_retry cfg score n = true
  ↔ (score < confidence_threshold cfg)%Q ∧ n < max_retries cfg.
Proof.
  unfold needs_retry.
  by rewrite andb_true_iff, Qltb_lt, Nat.ltb_lt.
Qed.

Lemma needs_retry_false (cfg : Config) (score : Q) (n : nat) :
  needs_retry cfg score n = false
  ↔ (confidence_threshold cfg <= score)%Q ∨ max_retries cfg ≤ n.
Proof.
  unfold needs_retry.
  by rewrite andb_false_iff, Qltb_ge, Nat.ltb_ge.
Qed.

Section Machine.
Context (cfg : Config) (env : Collaborators) (u : TranslationUnit).

Abbreviation step := (step cfg env u).
Abbreviation run_from := (run_from cfg env u).
Abbreviation reachable := (reachable cfg env u).
Abbreviation initial := Pipeline.initial.

Lemma translate_output (r : RouterOutput) (attempt : nat)
    (to_address : list QAIssue) (d : DraftOutput) :
  translate env u r attempt to_address = Completion d →
  draft_spans d = unit_spans env u
  ∧ draft_applied d = unit_applied env u (resolved_language r).
Proof.
  unfold translate.
  destruct (complete_translator _ _ _ _ _ _) as [raw|]; [|done].
  destruct (restore_placeholders _ _ _) as [restored missing].
  intros [= <-]. done.
Qed.

Lemma step_terminal (st : UnitState) : terminal st = true → step st = st.
Proof. unfold terminal, Pipeline.step. by destruct (phase st). Qed.

Lemma after_translate_cases (st : UnitState) (r : RouterOutput)
    (to_address : list QAIssue) :
  (∃ d, translate env u r (translation_attempts st) to_address = Completion d
        ∧ after_translate env u st r to_address
          = {| phase := Reviewing r d; retry_count := retry_count st;
               translation_attempts := S (translation_attempts st) |})
  ∨ (translate env u r (translation_attempts st) to_address = Unavailable
     ∧ after_translate env u st r to_address
       = fail env st Translator ModelUnavailableError).
Proof.
  unfold after_translate.
  destruct (translate _ _ _ _ _) as [d|]; [left; by exists d|by right].
Qed.

(** Every transition out of a phase that is not terminal brings the
    unit closer to the end. *)
Lemma step_decreases (st : UnitState) :
  terminal st = false → remaining cfg (step st) < remaining cfg st.
Proof.
  unfold terminal, Pipeline.step, remaining.
  destruct st as [ph rc ta]; cbn [phase retry_count translation_attempts].
  destruct ph as [|r|r d|r iss|r rev|r final rep|res|err]; try done; intros _.
  - destruct (complete_router env u) as [reply|]; [|cbn; lia].
    destruct (validate_router cfg u reply); cbn; lia.
  - destruct (after_translate_cases {| phase := Translating r; retry_count := rc;
                translation_attempts := ta |} r [])
      as [(d & _ & ->)|(_ & ->)]; cbn; lia.
  - destruct (complete_reviewer _ _ _ _) as [reply|]; [|cbn; lia].
    destruct (needs_retry cfg _ rc) eqn:E; cbn; [|lia].
    apply needs_retry_true in E as [_ E]. lia.
  - destruct (after_translate_cases {| phase := RetryTranslating r iss;
                retry_count := rc; translation_attempts := ta |} r iss)
      as [(d & _ & ->)|(_ & ->)]; cbn; lia.
  - destruct (post_process _ _ _) as [final rep]. cbn. lia.
  - cbn. lia.
Qed.

(** A failure names the stage that was at work. *)
Lemma failure_names_stage (st : UnitState) (err : PipelineError) :
  terminal st = false → phase (step st) = Failed err →
  stage_of (phase st) = Some (error_stage err).
Proof.
  unfold terminal, Pipeline.step.
  destruct st as [ph rc ta]; cbn [phase retry_count translation_attempts].
  destruct ph as [|r|r d|r iss|r rev|r final rep|res|err']; try done; intros _.
  - destruct (complete_router env u) as [reply|]; [|by intros [= <-]].
    destruct (validate_router cfg u reply); [done|by intros [= <-]].
  - destruct (after_translate_cases {| phase := Translating r; retry_count := rc;
                translation_attempts := ta |} r [])
      as [(d & _ & ->)|(_ & ->)]; [done|by intros [= <-]].
  - destruct (complete_reviewer _ _ _ _) as [reply|]; [|by intros [= <-]].
    by destruct (needs_retry cfg _ rc).
  - destruct (after_translate_cases {| phase := RetryTranslating r iss;
                retry_count := rc; translation_attempts := ta |} r iss)
      as [(d & _ & ->)|(_ & ->)]; [done|by intros [= <-]].
  - by destruct (post_process _ _ _).
Qed.

Lemma run_from_terminal (fuel : nat) :
  ∀ st, remaining cfg st ≤ fuel → terminal (run_from fuel st) = true.
Proof.
  induction fuel as [|fuel IH]; intros st Hrem; cbn [Pipeline.run_from].
  - unfold remaining, terminal in *. destruct (phase st); try done; lia.
  - destruct (terminal st) eqn:E; [done|].
    apply IH. pose proof (step_decreases st E). lia.
Qed.

Lemma run_from_reachable (fuel : nat) :
  ∀ st, reachable st → reachable (run_from fuel st).
Proof.
  induction fuel as [|fuel IH]; intros st Hst; cbn [Pipeline.run_from]; [done|].
  destruct (terminal st); [done|]. apply IH. by constructor.
Qed.

Lemma counters_step (st : UnitState) :
  counters_ok cfg st → counters_ok cfg (step st).
Proof.
  unfold counters_ok, Pipeline.step.
  destruct st as [ph rc ta]; cbn [phase retry_count translation_attempts].
  destruct ph as [|r|r d|r iss|r rev|r final rep|res|err]; intros [Hrc Hph].
  - destruct (complete_router env u) as [reply|]; [|cbn; lia].
    destruct (validate_router cfg u reply); cbn; lia.
  - destruct (after_translate_cases {| phase := Translating r; retry_count := rc;
                translation_attempts := ta |} r [])
      as [(d & _ & ->)|(_ & ->)]; cbn; lia.
  - destruct (complete_reviewer _ _ _ _) as [reply|]; [|cbn; lia].
    destruct (needs_retry cfg _ rc) eqn:E; cbn; [|lia].
    apply needs_retry_true in E as [_ E]. lia.
  - destruct (after_translate_cases {| phase := RetryTranslating r iss;
                retry_count := rc; translation_attempts := ta |} r iss)
      as [(d & _ & ->)|(_ & ->)]; cbn; lia.
  - destruct (post_process _ _ _) as [final rep]. cbn. lia.
  - cbn. lia.
  - done.
  - done.
Qed.

Lemma state_ok_step (st : UnitState) :
  state_ok env u st → state_ok env u (step st).
Proof.
  unfold state_ok, Pipeline.step.
  destruct st as [ph rc ta]; cbn [phase retry_count translation_attempts].
  destruct ph as [|r|r d|r iss|r rev|r final rep|res|err]; intros Hok.
  - destruct (complete_router env u) as [reply|].
    + destruct (validate_router cfg u reply); cbn; [done|].
      split; [done|]. split; [done|]. left. done.
    + cbn. split; [done|]. split; [done|]. right. split; [done|]. set_solver.
  - destruct (after_translate_cases {| phase := Translating r; retry_count := rc;
                translation_attempts := ta |} r [])
      as [(d & Hd & ->)|(_ & ->)]; cbn.
    + by apply translate_output in Hd.
    + split; [done|]. split; [done|]. right. split; [done|]. set_solver.
  - destruct Hok as [Hspans Happlied].
    destruct (complete_reviewer _ _ _ _) as [reply|]; cbn.
    + destruct (needs_retry cfg _ rc); cbn; [done|].
      rewrite Hspans, Happlied. split; [|split; [|done]].
      * intros s. apply assemble_report_protected.
      * intros e. apply assemble_report_glossary.
    + split; [done|]. split; [done|]. right. split; [done|]. set_solver.
  - destruct (after_translate_cases {| phase := RetryTranslating r iss;
                retry_count := rc; translation_attempts := ta |} r iss)
      as [(d & Hd & ->)|(_ & ->)]; cbn.
    + by apply translate_output in Hd.
    + split; [done|]. split; [done|]. right. split; [done|]. set_solver.
  - pose proof (post_process_spec (normalize env (unit_target_language u))
                  (unit_source_text u) rev) as Hpp.
    destruct (post_process _ _ _) as [final rep]. cbn [fst snd] in Hpp.
    destruct Hpp as (Hfinal & Hscore & Hlevel & Hgl & Hpt & Hiss).
    cbn. exists (review_text rev). split; [done|].
    destruct Hok as (Hp & Hg & Hl). split; [|split].
    * intros s Hs Hm Hocc. destruct (Hp s Hs Hm Hocc) as (Hflag & i & Hi & Hc).
      split; [congruence|]. exists i. split; [by apply Hiss|done].
    * intros e He Hocc. destruct (Hg e He Hocc) as (Hflag & i & Hi & Hc).
      split; [congruence|]. exists i. split; [by apply Hiss|done].
    * congruence.
  - cbn. split; [done|]. exact Hok.
  - done.
  - done.
Qed.

Lemma reachable_ok (st : UnitState) :
  reachable st → counters_ok cfg st ∧ state_ok env u st.
Proof.
  induction 1 as [|st _ [IHc IHs]].
  - split; [|done]. unfold counters_ok. cbn. lia.
  - split; [by apply counters_step|by apply state_ok_step].
Qed.

(** The loop always ends in a terminal phase, which is reachable. *)
Lemma run_ends :
  let final := run_from (budget cfg) initial in
  terminal final = true ∧ reachable final.
Proof.
  split.
  - apply run_from_terminal. unfold remaining, budget. cbn. lia.
  - apply run_from_reachable. constructor.
Qed.

Lemma run_completed (res : PipelineResult) :
  run cfg env u = Some (Completed res) →
  ∃ st, reachable st ∧ phase st = Done res.
Proof.
  unfold run, outcome_of. destruct run_ends as [_ Hreach].
  destruct (phase (run_from (budget cfg) initial)) eqn:E; try done.
  intros [= <-]. eauto.
Qed.

Lemma run_failed (err : PipelineError) :
  run cfg env u = Some (FailedUnit err) →
  ∃ st, reachable st ∧ phase st = Failed err.
Proof.
  unfold run, outcome_of. destruct run_ends as [_ Hreach].
  destruct (phase (run_from (budget cfg) initial)) eqn:E; try done.
  intros [= <-]. eauto.
Qed.

End Machine.

End OrchestratorFacts.

(** ** The claims about the pipeline *)

Module PipelineClaims.
Import Types Text TextFacts Pipeline ReviewFacts OrchestratorFacts Samples.

(** C1: with the default configuration (threshold 0.75, at most 2
    retries), in every state the unit can reach the retry count is at most
    2 and the Translator has called the model at most 3 times; when the
    Reviewer's model returns a confidence of at least 0.75 the next state
    is post-processing with the same retry count; when it returns less
    than 0.75 and fewer than 2 retries were made, the retry count grows
    by exactly one, the next state is the retranslation, and the state
    after that is the next review with that same retry count (or the
    failure of the model call); with less than 0.75 and 2 retries made,
    the unit goes on to post-processing. *)
Theorem retry_state_machine_bounded (env : Collaborators) (u : TranslationUnit)
    (st : UnitState) :
  reachable default_config env u st →
  retry_count st ≤ 2
  ∧ translation_attempts st ≤ 3
  ∧ ∀ r d reply,
      phase st = Reviewing r d →
      complete_reviewer env (translation_attempts st) (unit_source_text u)
        (draft_text d) = Completion reply →
      let st' := step default_config env u st in
      ((75 # 100 <= reply_confidence reply)%Q →
         retry_count st' = retry_count st
         ∧ translation_attempts st' = translation_attempts st
         ∧ ∃ rev, phase st' = PostProcessing r rev)
      ∧ ((reply_confidence reply < 75 # 100)%Q → retry_count st < 2 →
           retry_count st' = S (retry_count st)
           ∧ (∃ to_address, phase st' = RetryTranslating r to_address)
           ∧ let st'' := step default_config env u st' in
             retry_count st'' = S (retry_count st)
             ∧ ((∃ d', phase st'' = Reviewing r d'
                       ∧ translation_attempts st''
                         = S (translation_attempts st))
                ∨ (∃ err, phase st'' = Failed err
                          ∧ error_stage err = Translator
                          ∧ error_kind err = ModelUnavailableError)))
      ∧ ((reply_confidence reply < 75 # 100)%Q → retry_count st = 2 →
           retry_count st' = 2 ∧ ∃ rev, phase st' = PostProcessing r rev).
Proof.
  intros Hreach.
  destruct (reachable_ok default_config env u st Hreach) as [[Hrc Hph] _].
  cbn [max_retries default_config] in Hrc.
  split; [exact Hrc|]. split.
  { destruct (phase st); lia. }
  intros r d reply Hphase Hreply st'.
  subst st'. unfold step. rewrite Hphase, Hreply.
  split; [|split].
  - intros Hge.
    assert (needs_retry default_config (reply_confidence reply) (retry_count st)
            = false) as -> by (apply needs_retry_false; by left).
    cbn. eauto.
  - intros Hlt Hleft.
    assert (needs_retry default_config (reply_confidence reply) (retry_count st)
            = true) as -> by (by apply needs_retry_true).
    cbn [retry_count phase]. split; [done|]. split; [eauto|].
    cbn [phase].
    match goal with
    | |- context [after_translate ?e ?un ?s ?ro ?iss] =>
        destruct (after_translate_cases e un s ro iss)
          as [(d' & _ & ->)|(_ & ->)]
    end; cbn.
    + split; [done|]. left. eauto.
    + split; [done|]. right. eauto.
  - intros Hlt Hfull.
    assert (needs_retry default_config (reply_confidence reply) (retry_count st)
            = false) as ->.
    { apply needs_retry_false. right. cbn. lia. }
    cbn. eauto.
Qed.

Lemma retry_state_machine_bounded_witness :
  let env := sample_env false None in
  let st := step default_config env sample_unit
              (step default_config env sample_unit initial) in
  retry_count st ≤ 2
  ∧ retry_count (step default_config env sample_unit st) = 1.
Proof.
  intros env st.
  assert (reachable default_config env sample_unit st) as Hreach
    by (do 2 constructor; constructor).
  destruct (retry_state_machine_bounded env sample_unit st Hreach)
    as (Hrc & _ & Hnext).
  split; [exact Hrc|].
  destruct (phase st) as [|r|r d|r iss|r rev|r final rep|res|err] eqn:Hphase;
    try (vm_compute in Hphase; discriminate Hphase).
  destruct (complete_reviewer env (translation_attempts st)
              (unit_source_text sample_unit) (draft_text d))
    as [reply|] eqn:Hreply; [|vm_compute in Hreply; discriminate Hreply].
  destruct (Hnext r d reply eq_refl Hreply) as (_ & Hretry & _).
  assert (reply_confidence reply = 60 # 100) as Hscore
    by (vm_compute in Hreply; injection Hreply as <-; reflexivity).
  destruct Hretry as (-> & _).
  - rewrite Hscore. reflexivity.
  - vm_compute. lia.
  - reflexivity.
Defined.

(** When no model call can fail and the Router's reply is valid, no
    reachable state is a failure. *)
Lemma healthy_never_fails (cfg : Config) (env : Collaborators)
    (u : TranslationUnit) :
  (∃ reply r, complete_router env u = Completion reply
              ∧ validate_router cfg u reply = Some r) →
  (∀ tpl a m g i, complete_translator env tpl a m g i ≠ Unavailable) →
  (∀ a src d, complete_reviewer env a src d ≠ Unavailable) →
  ∀ st, reachable cfg env u st → ∀ err, phase st ≠ Failed err.
Proof.
  intros (reply & r0 & Hrouter & Hvalid) Htr Hrev st Hreach.
  induction Hreach as [|st _ IH]; [done|].
  intros err. unfold step.
  destruct (phase st) as [|r|r d|r iss|r rev|r final rep|res|err'] eqn:Hphase.
  - rewrite Hrouter, Hvalid. done.
  - unfold after_translate, translate.
    destruct (complete_translator _ _ _ _ _ _) eqn:E; [|by apply Htr in E].
    by destruct (restore_placeholders _ _ _).
  - destruct (complete_reviewer _ _ _ _) eqn:E; [|by apply Hrev in E].
    by destruct (needs_retry _ _ _).
  - unfold after_translate, translate.
    destruct (complete_translator _ _ _ _ _ _) eqn:E; [|by apply Htr in E].
    by destruct (restore_placeholders _ _ _).
  - by destruct (post_process _ _ _).
  - done.
  - rewrite Hphase. done.
  - by specialize (IH err').
Qed.



(** The drafts of the sample are scored 0.40 three times: the unit
    completes with two retries and the level [unacceptable]. *)
Example low_confidence_is_packaged :
  ∃ res, run default_config (sample_env true (Some (40 # 100))) sample_unit
         = Some (Completed res)
         ∧ retries (result_response res) = 2
         ∧ confidence_level (qa_report (result_response res))
           = Some unacceptable.
Proof. eexists. split; [vm_compute; reflexivity|]. split; reflexivity. Qed.

(** Scored 0.60 and then 0.80, the unit is retried once. *)
Example one_retry :
  ∃ res, run default_config (sample_env false None) sample_unit
         = Some (Completed res)
         ∧ retries (result_response res) = 1
         ∧ confidence_level (qa_report (result_response res))
           = Some acceptable.
Proof. eexists. split; [vm_compute; reflexivity|]. split; reflexivity. Qed.

Example model_down_fails_at_router :
  run default_config unavailable_env sample_unit
  = Some (FailedUnit {| error_stage := Router;
                        error_kind := ModelUnavailableError;
                        correlation_id := "c0ffee" |}).
Proof. reflexivity. Qed.

End PipelineClaims.

Module QualityClaims.
Import Types Text TextFacts Pipeline ReviewFacts OrchestratorFacts Samples.







(** The glossary scenario: [Details] is matched in the source, the draft
    lacks the target term, and the unit is flagged although the model's
    confidence is 0.99. *)
Example glossary_flagged_despite_confidence :
  ∃ res, run default_config (sample_env false (Some (99 # 100))) sample_unit
         = Some (Completed res)
         ∧ retries (result_response res) = 0
         ∧ confidence_level (qa_report (result_response res)) = Some excellent
         ∧ glossary_compliance (qa_report (result_response res)) = false
         ∧ protected_tokens_intact (qa_report (result_response res)) = true.
Proof. eexists. split; [vm_compute; reflexivity|]. repeat split. Qed.

(** The claim's example, as stated, fails: 0.80 is not [good]. *)
Lemma confidence_080_is_not_good : confidence_level_of (80 # 100) ≠ good.
Proof. discriminate. Qed.

(** C8, amended: the level is [excellent] exactly from 0.95, [good]
    exactly in [0.85, 0.95), [acceptable] exactly in [0.75, 0.85), [poor]
    exactly in [0.5, 0.75), and [unacceptable] exactly below 0.5; a
    confidence of 0.80 is therefore [acceptable]; and the Reviewer's
    report carries the level of its score. *)
Theorem confidence_level_thresholds (score : Q) :
  (confidence_level_of score = excellent ↔ (95 # 100 <= score)%Q)
  ∧ (confidence_level_of score = good
     ↔ (85 # 100 <= score)%Q ∧ (score < 95 # 100)%Q)
  ∧ (confidence_level_of score = acceptable
     ↔ (75 # 100 <= score)%Q ∧ (score < 85 # 100)%Q)
  ∧ (confidence_level_of score = poor
     ↔ (5 # 10 <= score)%Q ∧ (score < 75 # 100)%Q)
  ∧ (confidence_level_of score = unacceptable ↔ (score < 5 # 10)%Q)
  ∧ confidence_level_of (80 # 100) = acceptable
  ∧ ∀ src spans applied reply,
      confidence_level (assemble_report src spans applied reply)
      = Some (confidence_level_of
                (confidence_score (assemble_report src spans applied reply))).
Proof.
  unfold confidence_level_of.
  destruct (Qle_bool (95 # 100) score) eqn:E1;
  destruct (Qle_bool (85 # 100) score) eqn:E2;
  destruct (Qle_bool (75 # 100) score) eqn:E3;
  destruct (Qle_bool (5 # 10) score) eqn:E4;
  repeat match goal with
         | H : Qle_bool _ _ = true |- _ => apply Qle_bool_iff in H
         | H : Qle_bool _ _ = false |- _ => apply Qle_bool_false in H
         end;
  (split; [|split; [|split; [|split; [|split; [|split]]]]]);
  try reflexivity; try (split; intros; destruct_and?; try done; lra).
Qed.

End QualityClaims.

(** ** The public interface *)

Module InterfaceClaims.
Import Types Text Pipeline Samples TranslatePage PlaceholderFacts.

Lemma is_StylePreset_spec (s : string) :
  is_StylePreset s = true
  ↔ s = "formal_msa"%string ∨ s = "neutral"%string
    ∨ s = "marketing"%string ∨ s = "government_memo"%string.
Proof.
  unfold is_StylePreset. rewrite bool_decide_eq_true. cbn [map StylePreset_literal].
  rewrite !elem_of_cons, elem_of_nil. tauto.
Qed.

(** C6: the shared type [StylePreset] and the presets of the translate
    page disagree.  The page offers exactly neutral, formal, casual,
    technical and literary; the type has formal_msa, neutral, marketing
    and government_memo: [formal_msa] is a [StylePreset] and not one of
    the five, [formal] is offered by the page and not a [StylePreset],
    and [neutral] is the only value the two have in common. *)
Theorem style_presets_disagree :
  offered_style_presets
  = ["neutral"; "formal"; "casual"; "technical"; "literary"]%string
  ∧ is_StylePreset "formal_msa" = true
  ∧ ("formal_msa"%string ∉ offered_style_presets)
  ∧ ("formal"%string ∈ offered_style_presets)
  ∧ is_StylePreset "formal" = false
  ∧ (∀ s, is_StylePreset s = true ∧ s ∈ offered_style_presets
          ↔ s = "neutral"%string).
Proof.
  split; [reflexivity|]. split; [reflexivity|]. split.
  { cbn. rewrite !elem_of_cons, elem_of_nil. intros H.
    repeat destruct H as [H|H]; try discriminate H. done. }
  split; [cbn; set_solver|]. split; [reflexivity|].
  intros s. rewrite is_StylePreset_spec. cbn.
  rewrite !elem_of_cons, elem_of_nil. split.
  - intros [Hs Hin]. destruct Hs as [Hs|[Hs|[Hs|Hs]]]; subst s; [|done| |];
      repeat destruct Hin as [Hin|Hin]; try discriminate Hin; done.
  - intros ->. split; [tauto|by left].
Qed.

(** C7: the shared type [TranslationRequest] declares [target_language]
    optional: the request [{ text: "Hello, how are you?" }] is of that
    type and names no target language, whereas every call the translate
    page makes names one. *)
Theorem request_target_is_optional :
  req_target_language request_without_target = None
  ∧ req_text request_without_target = txt "Hello, how are you?"
  ∧ ∀ sourceText targetLanguage stylePreset glossaryId call,
      handleTranslate sourceText targetLanguage stylePreset glossaryId
      = Some call →
      call_target_language call = targetLanguage.
Proof.
  split; [reflexivity|]. split; [reflexivity|].
  intros sourceText targetLanguage stylePreset glossaryId call.
  unfold handleTranslate. destruct (forallb is_space sourceText); [done|].
  by intros [= <-].
Qed.



(** A source text with brackets of its own, none of them a placeholder. *)
Example round_trip_with_brackets :
  let t := txt "see [note] a@b.c" in
  let spans := [ {| span_kind := email; span_value := txt "a@b.c";
                    span_start := 11; span_end := 16; must_protect := true |} ] in
  tokens_fresh sample_token 0 t spans = true
  ∧ restore_placeholders sample_token
      (substitute_placeholders sample_token t spans) spans = (t, []).
Proof. split; reflexivity. Qed.

(** A draft that keeps the two placeholders between other words. *)
Example restore_translated_draft :
  restore_placeholders sample_token
    (txt "Write to [[PT0]] about [[PT1]] please") sample_spans
  = (txt "Write to support@example.com about {{ticket_id}} please", []).
Proof. reflexivity. Qed.

(** A draft that lost the second placeholder: the span is reported. *)
Example restore_draft_without_placeholder :
  ∃ s, restore_placeholders sample_token (txt "Write to [[PT0]]") sample_spans
       = (txt "Write to support@example.com", [s])
       ∧ span_kind s = placeholder.
Proof. eexists. split; reflexivity. Qed.

End InterfaceClaims.


(** ** More on the database *)

Module DatabaseMore.
Import Types Database Samples DatabaseFacts.

Lemma cleanup_jobs_lookup (now : timestamptz) (d : db) (id : UUID) :
  jobs (cleanup_expired_jobs now d).1 !! id
  = match jobs d !! id with
    | Some row => if decide (cleanup_condition now row) then None else Some row
    | None => None
    end.
Proof.
  unfold cleanup_expired_jobs; simpl. rewrite map_lookup_filter.
  destruct (jobs d !! id) as [row|]; [|done]. simpl.
  destruct (decide (cleanup_condition now row)) as [Hc|Hc].
  - rewrite option_guard_False by tauto. done.
  - rewrite option_guard_True by tauto. done.
Qed.

Lemma cleanup_count (now : timestamptz) (d : db) :
  ((cleanup_expired_jobs now d).2
   = Z.of_nat (size (jobs d)) - Z.of_nat (size (jobs (cleanup_expired_jobs now d).1)))%Z.
Proof.
  unfold cleanup_expired_jobs; simpl.
  rewrite (cleanup_partitions_jobs now (jobs d)). lia.
Qed.

Lemma cleanup_condition_later (now1 now2 : timestamptz) (row : job_row) :
  (now1 ≤ now2)%Z → cleanup_condition now1 row → cleanup_condition now2 row.
Proof. unfold cleanup_condition. intros Hle [Hlt Hst]. split; [lia|done]. Qed.

(** Running [cleanup_expired_jobs] a second time at the same [NOW()]
    deletes nothing: the database is unchanged and 0 is returned. *)
Theorem cleanup_expired_jobs_idempotent (now : timestamptz) (d : db) :
  cleanup_expired_jobs now (cleanup_expired_jobs now d).1
  = ((cleanup_expired_jobs now d).1, 0%Z).
Proof.
  assert (jobs (cleanup_expired_jobs now (cleanup_expired_jobs now d).1).1
          = jobs (cleanup_expired_jobs now d).1) as Hjobs.
  { apply map_eq. intros id. rewrite (cleanup_jobs_lookup now (_ .1)).
    rewrite cleanup_jobs_lookup.
    destruct (jobs d !! id) as [row|]; [|done].
    destruct (decide (cleanup_condition now row)) as [Hc|Hc]; [done|].
    by rewrite decide_False. }
  pose proof (cleanup_count now (cleanup_expired_jobs now d).1) as Hcount.
  rewrite Hjobs in Hcount.
  destruct (cleanup_expired_jobs now (cleanup_expired_jobs now d).1)
    as [d2 n2] eqn:E.
  cbn [fst snd] in *. f_equal; [|lia].
  assert (glossaries d2 = glossaries (cleanup_expired_jobs now d).1) as Hg
    by (by injection E as <- _).
  assert (glossary_entries d2 = glossary_entries (cleanup_expired_jobs now d).1)
    as He by (by injection E as <- _).
  destruct d2, (cleanup_expired_jobs now d).1. cbn in *. congruence.
Qed.

(** A cleanup at [now1] followed by one at a later [now2] leaves the jobs a
    single cleanup at [now2] leaves, and the two returned counts add up to
    the count of the single cleanup. *)
Theorem cleanup_expired_jobs_in_two_steps (now1 now2 : timestamptz) (d : db) :
  (now1 ≤ now2)%Z →
  let first := cleanup_expired_jobs now1 d in
  let second := cleanup_expired_jobs now2 first.1 in
  jobs second.1 = jobs (cleanup_expired_jobs now2 d).1
  ∧ (first.2 + second.2 = (cleanup_expired_jobs now2 d).2)%Z.
Proof.
  intros Hle first second.
  assert (jobs second.1 = jobs (cleanup_expired_jobs now2 d).1) as Hjobs.
  { apply map_eq. intros id. subst second first.
    rewrite (cleanup_jobs_lookup now2 (_ .1)), !cleanup_jobs_lookup.
    destruct (jobs d !! id) as [row|]; [|done].
    destruct (decide (cleanup_condition now1 row)) as [Hc|Hc].
    - rewrite decide_True by (by apply (cleanup_condition_later now1)). done.
    - done. }
  split; [exact Hjobs|].
  pose proof (cleanup_count now1 d) as H1.
  pose proof (cleanup_count now2 first.1) as H2.
  pose proof (cleanup_count now2 d) as H3.
  fold first in H1. fold second in H2. rewrite Hjobs in H2. lia.
Qed.

Lemma cleanup_expired_jobs_in_two_steps_witness :
  (cleanup_expired_jobs 5%Z sample_db).2 = 0%Z
  ∧ ((cleanup_expired_jobs 5%Z sample_db).2
     + (cleanup_expired_jobs 20%Z (cleanup_expired_jobs 5%Z sample_db).1).2
     = 1)%Z.
Proof.
  split; [reflexivity|].
  destruct (cleanup_expired_jobs_in_two_steps 5%Z 20%Z sample_db) as [_ ->];
    [lia|reflexivity].
Defined.

Lemma delete_glossary_keeps_reference_witness :
  entries_reference_glossaries sample_db
  ∧ entries_reference_glossaries (delete_glossary 7%N sample_db).
Proof.
  assert (entries_reference_glossaries sample_db) as H.
  { intros k e. unfold sample_db; cbn [glossary_entries glossaries].
    intros [<- <-]%lookup_singleton_Some. cbn. by rewrite lookup_singleton_eq. }
  split; [exact H|]. by apply delete_glossary_keeps_reference.
Defined.

End DatabaseMore.

(** ** Referential actions of the schema *)

Module SchemaFacts.
Import Types Database Schema.

Lemma orphan_glossary_owner (now : timestamptz) (uid : UUID) (g : glossary_row) :
  glossary_user_id (orphan_glossary now uid g) ≠ Some uid.
Proof. unfold orphan_glossary. case_bool_decide; [done|congruence]. Qed.

Lemma orphan_glossary_other (now : timestamptz) (uid other : UUID)
    (g : glossary_row) :
  glossary_user_id (orphan_glossary now uid g) = Some other →
  glossary_user_id g = Some other ∧ other ≠ uid.
Proof.
  unfold orphan_glossary. case_bool_decide as E; [done|].
  intros H. split; [done|]. congruence.
Qed.

Lemma orphan_audit_log_other (uid other : UUID) (a : audit_log_row) :
  audit_user_id (orphan_audit_log uid a) = Some other →
  audit_user_id a = Some other ∧ other ≠ uid.
Proof.
  unfold orphan_audit_log. case_bool_decide as E; [done|].
  intros H. split; [done|]. congruence.
Qed.

Lemma delete_user_keeps_references (now : timestamptz) (uid : UUID)
    (d : database) :
  references_hold d → references_hold (delete_user now uid d).
Proof.
  unfold delete_user. destruct (users d !! uid) as [u|] eqn:Hu; [|done].
  intros (Hrf & Hus & Hjobs & Hgl & Hent & Haud).
  unfold references_hold; cbn. repeat apply conj.
  - exact Hrf.
  - intros k u' Hk. apply lookup_delete_Some in Hk as [_ Hk]. by apply (Hus k).
  - intros k j Hk. apply map_lookup_filter_Some in Hk as [Hk Hne]. cbn in Hne.
    rewrite lookup_delete_ne by done. by apply (Hjobs k).
  - intros k g other Hk Howner. rewrite lookup_fmap in Hk.
    destruct (glossaries d !! k) as [g0|] eqn:Hg0; [|done].
    injection Hk as <-. apply orphan_glossary_other in Howner as [Howner Hne].
    rewrite lookup_delete_ne by done. by apply (Hgl k g0).
  - intros k e Hk. rewrite lookup_fmap.
    destruct (Hent k e Hk) as [g Hg]. rewrite Hg. by eexists.
  - intros k a other Hk Howner. rewrite lookup_fmap in Hk.
    destruct (audit_logs d !! k) as [a0|] eqn:Ha0; [|done].
    injection Hk as <-. apply orphan_audit_log_other in Howner as [Howner Hne].
    rewrite lookup_delete_ne by done. by apply (Haud k a0).
Qed.

(** Deleting a user deletes exactly the user's jobs, keeps every glossary
    (the user's own lose their owner and get [updated_at = NOW()], the
    others are unchanged) and every glossary entry and audit log, and
    leaves a database whose references hold if they held before. *)
Theorem delete_user_cascades (now : timestamptz) (uid : UUID) (u : user_row)
    (d : database) :
  users d !! uid = Some u →
  let d' := delete_user now uid d in
  users d' !! uid = None
  ∧ (∀ k j, jobs d' !! k = Some j
            ↔ jobs d !! k = Some j ∧ job_user_id j ≠ uid)
  ∧ (∀ k, is_Some (glossaries d' !! k) ↔ is_Some (glossaries d !! k))
  ∧ (∀ k g, glossaries d !! k = Some g → glossary_user_id g = Some uid →
       ∃ g', glossaries d' !! k = Some g'
             ∧ glossary_user_id g' = None
             ∧ glossary_name g' = glossary_name g
             ∧ glossary_updated_at g' = Some now)
  ∧ (∀ k g, glossaries d !! k = Some g → glossary_user_id g ≠ Some uid →
       glossaries d' !! k = Some g)
  ∧ glossary_entries d' = glossary_entries d
  ∧ (∀ k, is_Some (audit_logs d' !! k) ↔ is_Some (audit_logs d !! k))
  ∧ (references_hold d → references_hold d').
Proof.
  intros Hu d'. subst d'. unfold delete_user at 1 2 3 4 5 6 7.
  rewrite Hu. cbn.
  repeat apply conj.
  - apply lookup_delete_eq.
  - intros k j. rewrite map_lookup_filter_Some. cbn. tauto.
  - intros k. rewrite lookup_fmap, fmap_is_Some. done.
  - intros k g Hg Howner. rewrite lookup_fmap, Hg. cbn.
    unfold orphan_glossary. rewrite bool_decide_eq_true_2 by done.
    eexists. split; [done|]. done.
  - intros k g Hg Howner. rewrite lookup_fmap, Hg. cbn.
    unfold orphan_glossary. by rewrite bool_decide_eq_false_2.
  - done.
  - intros k. rewrite lookup_fmap, fmap_is_Some. done.
  - intros Href. pose proof (delete_user_keeps_references now uid d Href) as H.
    unfold delete_user in H |- *. rewrite Hu in H |- *. exact H.
Qed.

Lemma delete_user_cascades_witness :
  users (delete_user 50%Z 1%N PageSamples.sample_database) !! 1%N = None
  ∧ jobs (delete_user 50%Z 1%N PageSamples.sample_database) = ∅.
Proof.
  destruct (delete_user_cascades 50%Z 1%N PageSamples.sample_user
              PageSamples.sample_database) as (Huser & _);
    [reflexivity|].
  split; [exact Huser|]. vm_compute. reflexivity.
Defined.

(** A role some user has cannot be deleted; a role no user has is deleted
    together with exactly its features, the users stay as they are, and
    the references of the database keep holding. *)
Theorem delete_role_restricted (rid : UUID) (r : role_row) (d : database) :
  roles d !! rid = Some r →
  (delete_role rid d = inl foreign_key_violation
   ↔ ∃ k u, users d !! k = Some u ∧ user_role_id u = rid)
  ∧ (∀ d', delete_role rid d = inr d' →
       roles d' !! rid = None
       ∧ (∀ other, other ≠ rid → roles d' !! other = roles d !! other)
       ∧ users d' = users d
       ∧ (∀ k f, role_features d' !! k = Some f
                 ↔ role_features d !! k = Some f ∧ feature_role_id f ≠ rid)
       ∧ (references_hold d → references_hold d')).
Proof.
  intros Hr. unfold delete_role. rewrite Hr.
  case_bool_decide as Hex.
  - split.
    + split; [|done]. intros _.
      destruct Hex as (k & u & Hk & Hrole). eauto.
    + intros d' [=].
  - split.
    + split; [done|]. intros (k & u & Hk & Hrole). exfalso. apply Hex.
      exists k, u. done.
    + intros d' [= <-]. cbn. repeat apply conj.
      * apply lookup_delete_eq.
      * intros other Hne. by rewrite lookup_delete_ne.
      * done.
      * intros k f. rewrite map_lookup_filter_Some. cbn. tauto.
      * intros (Hrf & Hus & Hrest). unfold references_hold; cbn.
        split; [|split; [|exact Hrest]].
        -- intros k f Hk. apply map_lookup_filter_Some in Hk as [Hk Hne].
           cbn in Hne. rewrite lookup_delete_ne by done. by apply (Hrf k).
        -- intros k u Hk.
           assert (user_role_id u ≠ rid) as Hne.
           { intros E. apply Hex. by exists k, u. }
           rewrite lookup_delete_ne by done. by apply (Hus k).
Qed.

Lemma delete_role_restricted_witness :
  delete_role 100%N PageSamples.sample_database = inl foreign_key_violation.
Proof.
  destruct (delete_role_restricted 100%N PageSamples.sample_role
              PageSamples.sample_database) as [[_ Hrefused] _];
    [reflexivity|].
  apply Hrefused. exists 1%N, PageSamples.sample_user. split; reflexivity.
Defined.

End SchemaFacts.

(** ** Pagination *)

Module HistoryFacts.
Import HistoryPage.

Lemma totalPages_div (total : nat) :
  totalPages total = ((Z.of_nat total + 9) / 10)%Z.
Proof.
  unfold totalPages, Math_ceil, Qceiling, Qfloor, limit. cbn [Qopp Qnum Qden].
  Z.div_mod_to_equations. lia.
Qed.


End HistoryFacts.

(** ** The role dialog of the admin page *)

Module AdminFacts.
Import JS AdminPage.

(** Toggling a feature flips whether it is selected and changes nothing
    for any other feature; a selection without duplicates stays so; two
    toggles give back the same selection, and the very same list when the
    feature was not selected. *)
Theorem toggleFeature_flips (feature : jsstring) (prev : list jsstring) :
  (∀ g, g ∈ toggleFeature feature prev
        ↔ (g = feature ∧ feature ∉ prev) ∨ (g ≠ feature ∧ g ∈ prev))
  ∧ (NoDup prev → NoDup (toggleFeature feature prev))
  ∧ (∀ g, g ∈ toggleFeature feature (toggleFeature feature prev) ↔ g ∈ prev)
  ∧ (feature ∉ prev →
     toggleFeature feature (toggleFeature feature prev) = prev).
Proof.
  assert (∀ l g, g ∈ toggleFeature feature l
                 ↔ (g = feature ∧ feature ∉ l) ∨ (g ≠ feature ∧ g ∈ l)) as Hmem.
  { intros l g. unfold toggleFeature. case_bool_decide as Hin.
    - rewrite list_elem_of_filter. split.
      + intros [Hne Hg]. right. done.
      + intros [[-> Hn]|[Hne Hg]]; done.
    - rewrite elem_of_app, list_elem_of_singleton. split.
      + intros [Hg| ->]; [right|left]; [|done]. split; [|done].
        intros ->. done.
      + intros [[-> _]|[_ Hg]]; [by right|by left]. }
  split; [apply Hmem|]. split; [|split].
  - intros Hnd. unfold toggleFeature. case_bool_decide as Hin.
    + by apply NoDup_filter.
    + apply NoDup_app. split; [done|]. split; [|apply NoDup_singleton].
      intros g Hg ->%list_elem_of_singleton. done.
  - intros g. rewrite !Hmem.
    destruct (decide (g = feature)) as [->|Hne];
      destruct (decide (feature ∈ prev)); tauto.
  - intros Hnot. unfold toggleFeature at 2.
    rewrite bool_decide_eq_false_2 by done.
    unfold toggleFeature. rewrite bool_decide_eq_true_2
      by (apply elem_of_app; right; by apply list_elem_of_singleton).
    rewrite filter_app.
    assert (filter (λ f, f ≠ feature) prev = prev) as ->.
    { clear -Hnot. induction prev as [|x l IH]; [done|].
      rewrite not_elem_of_cons in Hnot. destruct Hnot as [Hx Hl].
      rewrite filter_cons_True by done. by rewrite IH. }
    rewrite filter_cons_False by (intros H; by apply H).
    rewrite filter_nil. apply app_nil_r.
Qed.

End AdminFacts.

(** ** The state of the translate page *)

Module TranslateStateFacts.
Import Types TranslatePage TranslateState.

Lemma swap_target (st : State) :
  targetLanguage (handleSwapLanguages st) = targetLanguage st
  ∨ targetLanguage (handleSwapLanguages st) ∈ ["ar"; "en"]%string.
Proof.
  unfold handleSwapLanguages. destruct (result st) as [[? [|c rest]]|]; cbn;
    [by left| |by left].
  right. case_bool_decide; set_solver.
Qed.

Lemma swap_cases (st : State) :
  (handleSwapLanguages st = st
   ∧ (result st = None ∨ ∃ r, result st = Some r ∧ translation r = []))
  ∨ (∃ r c rest,
       result st = Some r ∧ translation r = c :: rest
       ∧ handleSwapLanguages st
         = {| sourceText := c :: rest;
              targetLanguage := if bool_decide (targetLanguage st = "ar"%string)
                                then "en"%string else "ar"%string;
              stylePreset := stylePreset st; glossaryId := glossaryId st;
              result := None; isLoading := isLoading st |}).
Proof.
  unfold handleSwapLanguages.
  destruct (result st) as [r|] eqn:Hr; [|left; by split; [|left]].
  destruct r as [jid [|c rest] sl tl conf rep ms rt].
  - left. split; [done|]. right. eauto.
  - right. exists {| job_id := jid; translation := c :: rest;
                     source_language := sl; target_language := tl;
                     confidence := conf; qa_report := rep;
                     processing_time_ms := ms; retries := rt |}, c, rest.
    done.
Qed.

(** In every state the page can reach, the target language is [ar] or
    [en] and the style preset is one of the five the page offers; so is
    every call [handleTranslate] makes. *)
Theorem translate_page_sends_offered_values (st : State) :
  reachable st →
  targetLanguage st ∈ ["ar"; "en"]%string
  ∧ stylePreset st ∈ offered_style_presets
  ∧ ∀ call,
      handleTranslate (sourceText st) (targetLanguage st) (stylePreset st)
        (glossaryId st) = Some call →
      call_target_language call ∈ ["ar"; "en"]%string
      ∧ call_style_preset call ∈ offered_style_presets
      ∧ call_text call = sourceText st.
Proof.
  intros Hreach.
  assert (targetLanguage st ∈ ["ar"; "en"]%string
          ∧ stylePreset st ∈ offered_style_presets) as [Ht Hs].
  { induction Hreach as [|t st _ IH|v st _ IH Hv|v st _ IH Hv|v st _ IH
                        |reply st _ IH|st _ IH]; cbn.
    - split; [cbn; set_solver|cbn; set_solver].
    - exact IH.
    - split; [exact Hv|apply IH].
    - split; [apply IH|exact Hv].
    - exact IH.
    - unfold handleTranslate_settled. by destruct (handleTranslate _ _ _ _).
    - destruct IH as [IHt IHs]. split.
      + destruct (swap_target st) as [-> | H]; done.
      + unfold handleSwapLanguages.
        by destruct (result st) as [[? [|c rest]]|]. }
  split; [exact Ht|]. split; [exact Hs|].
  intros call. unfold handleTranslate.
  destruct (forallb is_space (sourceText st)); [done|].
  intros [= <-]. done.
Qed.

Lemma translate_page_sends_offered_values_witness :
  stylePreset initial ∈ offered_style_presets.
Proof.
  exact (proj1 (proj2 (translate_page_sends_offered_values initial
                         reach_initial))).
Defined.

(** Swapping twice in a row is swapping once: a swap needs a translation
    on display and removes it.  When there is one, it becomes the source
    text and the target language changes to [ar] or [en]. *)
Theorem handleSwapLanguages_once (st : State) :
  handleSwapLanguages (handleSwapLanguages st) = handleSwapLanguages st
  ∧ (result st = None → handleSwapLanguages st = st)
  ∧ (∀ r, result st = Some r → translation r = [] →
          handleSwapLanguages st = st)
  ∧ (∀ r, result st = Some r → translation r ≠ [] →
          sourceText (handleSwapLanguages st) = translation r
          ∧ result (handleSwapLanguages st) = None
          ∧ targetLanguage (handleSwapLanguages st) ∈ ["ar"; "en"]%string
          ∧ targetLanguage (handleSwapLanguages st) ≠ targetLanguage st).
Proof.
  destruct (swap_cases st) as [(Hsame & Hwhy)|(r & c & rest & Hr & Ht & Hswap)].
  - rewrite !Hsame. split; [done|]. split; [done|]. split; [done|].
    intros r Hr Hne. destruct Hwhy as [Hnone|(r' & Hr' & Hempty)]; congruence.
  - split.
    { rewrite Hswap. reflexivity. }
    split; [congruence|]. split; [congruence|].
    intros r' Hr' _. assert (r' = r) as -> by congruence.
    rewrite Hswap, Ht. cbn. split; [done|]. split; [done|].
    case_bool_decide as E; split; try set_solver. by rewrite E.
Qed.

(** The percentage under "Glossary Compliance" is 100 when the report
    says [glossary_compliance = true], and 0 otherwise, also when there is
    no report: nothing in between is ever shown. *)
Theorem glossary_compliance_percent_is_all_or_nothing (report : option QAReport) :
  (glossary_compliance_percent report = 100%Z
   ↔ ∃ r, report = Some r ∧ glossary_compliance r = true)
  ∧ (glossary_compliance_percent report = 0%Z
     ↔ ¬ ∃ r, report = Some r ∧ glossary_compliance r = true).
Proof.
  unfold glossary_compliance_percent.
  destruct report as [r|]; [destruct (glossary_compliance r) eqn:E|].
  - split; split; try done.
    + intros _. eauto.
    + intros H. exfalso. apply H. eauto.
  - split; split; try done.
    + intros (r' & [= <-] & H). congruence.
    + intros _ (r' & [= <-] & H). congruence.
  - split; split; try done.
    + intros (r' & [=] & _).
    + intros _ (r' & [=] & _).
Qed.

End TranslateStateFacts.

(** ** The glossary page *)

Module GlossaryFacts.
Import JS GlossaryPage.

(** Deleting a glossary removes every glossary of that id from the list.
    The selection stays when another glossary was selected; when the
    selected glossary is the one deleted, the selection becomes the first
    glossary of the list as it was before the deletion, so that deleting
    the selected first glossary leaves it selected although it is gone
    from the list. *)
Theorem handleDeleteGlossary_selection (st : State) (glossaryId : jsstring)
    (sel : Glossary) :
  selectedGlossary st = Some sel →
  let st' := handleDeleteGlossary st st true (Resolved ()) glossaryId in
  (∀ g, g ∈ glossaries st'
        ↔ g ∈ glossaries st ∧ glossary_id g ≠ glossaryId)
  ∧ (glossary_id sel ≠ glossaryId →
     selectedGlossary st' = Some sel
     ∧ (sel ∈ glossaries st → sel ∈ glossaries st'))
  ∧ (glossary_id sel = glossaryId →
     selectedGlossary st' = head (glossaries st)
     ∧ (head (glossaries st) = Some sel →
        selectedGlossary st' = Some sel ∧ sel ∉ glossaries st')).
Proof.
  intros Hsel st'. subst st'. unfold handleDeleteGlossary. cbn.
  rewrite Hsel. split; [|split].
  - intros g. rewrite list_elem_of_filter. tauto.
  - intros Hne. rewrite bool_decide_eq_false_2 by done.
    split; [done|]. intros Hin. by apply list_elem_of_filter.
  - intros Heq. rewrite bool_decide_eq_true_2 by done.
    split; [done|]. intros Hhead. split; [done|].
    rewrite list_elem_of_filter. tauto.
Qed.

Lemma handleDeleteGlossary_selection_witness :
  let st' := handleDeleteGlossary PageSamples.sample_glossary_state
               PageSamples.sample_glossary_state true (Resolved ()) (js "g1") in
  selectedGlossary st' = Some PageSamples.legal_glossary
  ∧ PageSamples.legal_glossary ∉ glossaries st'.
Proof.
  destruct (handleDeleteGlossary_selection PageSamples.sample_glossary_state
              (js "g1") PageSamples.legal_glossary eq_refl) as (_ & _ & H).
  destruct (H eq_refl) as [_ Hgone]. apply Hgone. reflexivity.
Defined.

(** Declining the confirmation, or a failed call, changes nothing. *)
Lemma handleDeleteGlossary_cancelled (rendered current : State)
    (api : Awaited ()) (e : Thrown) (glossaryId : jsstring) :
  handleDeleteGlossary rendered current false api glossaryId = current
  ∧ handleDeleteGlossary rendered current true (Rejected e) glossaryId = current.
Proof. done. Qed.

End GlossaryFacts.

(** ** JavaScript strings *)

Module JSFacts.
Import JS.

Lemma startsWith_spec (needle hay : jsstring) :
  startsWith needle hay = true ↔ ∃ post, hay = needle ++ post.
Proof.
  revert hay. induction needle as [|c needle IH]; intros hay; cbn.
  - split; [eauto|done].
  - destruct hay as [|d hay].
    + split; [done|]. by intros (post & [=]).
    + rewrite andb_true_iff, N.eqb_eq, IH. split.
      * intros (-> & post & ->). eauto.
      * intros (post & [= -> ->]). eauto.
Qed.

Lemma includes_spec (needle hay : jsstring) :
  includes needle hay = true ↔ ∃ pre post, hay = pre ++ needle ++ post.
Proof.
  induction hay as [|d hay IH]; cbn [includes];
    rewrite orb_true_iff, startsWith_spec.
  - split.
    + intros [(post & H)|[=]]. exists [], post. done.
    + intros (pre & post & H). left.
      destruct pre; [by exists post|done].
  - rewrite IH. split.
    + intros [(post & ->)|(pre & post & ->)].
      * by exists [], post.
      * by exists (d :: pre), post.
    + intros (pre & post & H). destruct pre as [|p pre].
      * left. by exists post.
      * right. injection H as -> ->. eauto.
Qed.

Lemma includes_empty (hay : jsstring) : includes [] hay = true.
Proof. by destruct hay. Qed.

(** A part of a part is a part. *)
Lemma includes_trans (a b c : jsstring) :
  includes a b = true → includes b c = true → includes a c = true.
Proof.
  rewrite !includes_spec. intros (p1 & q1 & ->) (p2 & q2 & ->).
  exists (p2 ++ p1), (q1 ++ q2). by rewrite <- !app_assoc.
Qed.

Lemma split_not_nil (sep : N) (s : jsstring) : split sep s ≠ [].
Proof.
  induction s as [|c s IH]; cbn; [done|].
  destruct (c =? sep)%N; [done|]. by destruct (split sep s).
Qed.

Lemma split_app (sep : N) (a b : jsstring) :
  split sep (a ++ sep :: b) = split sep a ++ split sep b.
Proof.
  induction a as [|c a IH]; cbn.
  - by rewrite N.eqb_refl.
  - destruct (c =? sep)%N; [by rewrite IH|].
    rewrite IH. pose proof (split_not_nil sep a).
    by destruct (split sep a).
Qed.

Lemma split_without_separator (sep : N) (s : jsstring) :
  sep ∉ s → split sep s = [s].
Proof.
  induction s as [|c s IH]; [done|].
  rewrite not_elem_of_cons. intros [Hne Hs]. cbn.
  assert ((c =? sep)%N = false) as -> by (apply N.eqb_neq; congruence).
  by rewrite (IH Hs).
Qed.

Lemma split_head (sep c : N) (s : jsstring) :
  c ≠ sep → ∃ w ws, split sep (c :: s) = (c :: w) :: ws.
Proof.
  intros Hne. cbn.
  assert ((c =? sep)%N = false) as -> by (by apply N.eqb_neq).
  pose proof (split_not_nil sep s). destruct (split sep s); [done|eauto].
Qed.

Lemma trimStart_head (s : jsstring) (c : N) (rest : jsstring) :
  trimStart s = c :: rest → is_whitespace c = false.
Proof.
  induction s as [|d s IH]; cbn; [done|].
  destruct (is_whitespace d) eqn:E; [exact IH|]. by intros [= <- _].
Qed.

Lemma trimStart_snoc (l : jsstring) (c : N) :
  is_whitespace c = false → ∃ l', trimStart (l ++ [c]) = l' ++ [c].
Proof.
  intros Hc. induction l as [|d l IH]; cbn.
  - rewrite Hc. by exists [].
  - destruct (is_whitespace d); [exact IH|]. by exists (d :: l).
Qed.

(** What [trim] leaves begins with a code unit that is not white space. *)
Lemma trim_head (s : jsstring) :
  trim s = [] ∨ ∃ c rest, trim s = c :: rest ∧ is_whitespace c = false.
Proof.
  unfold trim, trimEnd.
  destruct (trimStart s) as [|c r] eqn:E; [by left|right].
  pose proof (trimStart_head s c r E) as Hc.
  cbn [rev]. destruct (trimStart_snoc (rev r) c Hc) as (l' & ->).
  rewrite rev_app_distr. cbn. eauto.
Qed.

End JSFacts.

(** ** The initials of the signed-in user *)

Module LayoutFacts.
Import JS JSFacts DashboardLayout.

Lemma name_parts_not_nil (name : jsstring) :
  trim name ≠ [] → name_parts name ≠ [].
Proof.
  intros Hne. unfold name_parts.
  destruct (trim_head name) as [E|(c & rest & E & Hc)]; [done|].
  rewrite E.
  assert (c ≠ 32%N) as Hsp by (intros ->; done).
  destruct (split_head 32 c rest Hsp) as (w & ws & ->).
  by rewrite filter_cons_True.
Qed.

Lemma initials_of_parts_length (toUpperCase : jsstring → jsstring)
    (parts : list jsstring) :
  0 < length (initials_of_parts toUpperCase parts) ≤ 2.
Proof.
  unfold initials_of_parts, or_else.
  destruct (take 2 _) as [|x l] eqn:E; [cbn; lia|].
  assert (length (x :: l) ≤ 2) by (rewrite <- E, length_take; lia).
  cbn in *. lia.
Qed.

(** The initials are never empty (given that upper-casing does not empty a
    string).  A display name with anything but white space in it decides
    them alone: they are made of its words, have at most two code units,
    and the user name is not looked at.  Without such a display name they
    are the upper-cased first two code units of the user name, or [U]. *)
Theorem getUserInitials_never_blank (toUpperCase : jsstring → jsstring) :
  (∀ s, s ≠ [] → toUpperCase s ≠ []) →
  (∀ user, getUserInitials toUpperCase user ≠ [])
  ∧ (∀ user name,
       user_display_name user = Some name → trim name ≠ [] →
       getUserInitials toUpperCase (Some user)
       = initials_of_parts toUpperCase (name_parts name)
       ∧ name_parts name ≠ []
       ∧ length (getUserInitials toUpperCase (Some user)) ≤ 2)
  ∧ (∀ user,
       (∀ name, user_display_name user = Some name → trim name = []) →
       getUserInitials toUpperCase (Some user)
       = match user_username user with
         | Some (c :: rest) => toUpperCase (take 2 (c :: rest))
         | _ => js "U"
         end).
Proof.
  intros Hupper.
  assert (∀ user name,
            user_display_name user = Some name → trim name ≠ [] →
            getUserInitials toUpperCase (Some user)
            = initials_of_parts toUpperCase (name_parts name)) as Hdisplay.
  { intros [un dn em fs] name Hdn Htrim. cbn in Hdn. subst dn.
    unfold getUserInitials.
    destruct name as [|c rest]; [done|].
    pose proof (name_parts_not_nil (c :: rest) Htrim) as Hparts.
    destruct (trim (c :: rest)) as [|t ts]; [done|]. cbn [length Nat.ltb Nat.leb].
    destruct (name_parts (c :: rest)) as [|p ps]; [done|]. done. }
  assert (∀ user,
            (∀ name, user_display_name user = Some name → trim name = []) →
            getUserInitials toUpperCase (Some user)
            = match user_username user with
              | Some (c :: rest) => toUpperCase (take 2 (c :: rest))
              | _ => js "U"
              end) as Husername.
  { intros [un dn em fs] Hblank. cbn in Hblank. unfold getUserInitials.
    destruct dn as [[|c rest]|].
    - by destruct un as [[|]|].
    - rewrite (Hblank (c :: rest) eq_refl). by destruct un as [[|]|].
    - by destruct un as [[|]|]. }
  split; [|split].
  - intros [user|]; [|done].
    destruct (user_display_name user) as [name|] eqn:Hdn.
    + destruct (decide (trim name = [])) as [Hblank|Hvisible].
      * rewrite Husername by (intros n; congruence).
        destruct (user_username user) as [[|c rest]|]; try done.
        by apply Hupper.
      * rewrite (Hdisplay user name Hdn Hvisible).
        pose proof (initials_of_parts_length toUpperCase (name_parts name)).
        intros E. rewrite E in H. cbn in H. lia.
    + rewrite Husername by (intros n; congruence).
      destruct (user_username user) as [[|c rest]|]; try done.
      by apply Hupper.
  - intros user name Hdn Htrim. rewrite (Hdisplay user name Hdn Htrim).
    split; [done|]. split; [by apply name_parts_not_nil|].
    apply initials_of_parts_length.
  - exact Husername.
Qed.

Lemma getUserInitials_never_blank_witness :
  getUserInitials PageSamples.ascii_upper (Some PageSamples.sample_auth_user)
  ≠ [].
Proof.
  refine (proj1 (getUserInitials_never_blank PageSamples.ascii_upper _)
            (Some PageSamples.sample_auth_user)).
  intros [|c s] Hs; [done|discriminate].
Defined.

(** Before hydration, without a signed-in user, or for a user that
    carries no feature list, the menu is empty, whatever [hasFeature]
    answers.  Otherwise it holds exactly the items of [navItems] whose
    feature [hasFeature] grants.  In every case the items shown are items
    of [navItems] in their order. *)
Theorem visibleNavItems_guarded (hasFeature : jsstring → bool)
    (hasHydrated : bool) (user : option AuthUser) :
  (hasHydrated = false ∨ user = None
   ∨ (∃ u, user = Some u ∧ user_features u = None) →
   visibleNavItems hasFeature hasHydrated user = [])
  ∧ (∀ u fs, hasHydrated = true → user = Some u → user_features u = Some fs →
       ∀ item, item ∈ visibleNavItems hasFeature hasHydrated user
               ↔ item ∈ navItems
                 ∧ ∃ f, nav_feature item = Some f ∧ hasFeature f = true)
  ∧ sublist (visibleNavItems hasFeature hasHydrated user) navItems.
Proof.
  split; [|split].
  - intros [->|[->|(u & -> & Hfs)]]; [done|by destruct hasHydrated|].
    destruct u as [un dn em fs]. cbn in Hfs. subst fs.
    by destruct hasHydrated.
  - intros u fs -> -> Hfs item. unfold visibleNavItems.
    rewrite list_elem_of_filter.
    destruct u as [un dn em fs']. cbn in Hfs. subst fs'.
    split.
    + intros [Hvis Hin]. split; [done|].
      unfold navItems in Hin. rewrite !elem_of_cons, elem_of_nil in Hin.
      destruct Hin as [->|[->|[->|[->|[->|[]]]]]]; cbn in Hvis |- *; eauto.
    + intros [Hin (f & Hf & Hgrant)]. split; [|done].
      unfold navItems in Hin. rewrite !elem_of_cons, elem_of_nil in Hin.
      destruct Hin as [->|[->|[->|[->|[->|[]]]]]]; cbn in Hf |- *;
        injection Hf as <-; exact Hgrant.
  - apply sublist_filter.
Qed.

End LayoutFacts.

(** ** Searching the glossary entries *)

Module GlossarySearchFacts.
Import JS JSFacts GlossaryPage.

Lemma filter_sublist_mono {A : Type} (P Q : A → Prop)
    `{!∀ x, Decision (P x)} `{!∀ x, Decision (Q x)} (l : list A) :
  (∀ x, P x → Q x) → sublist (filter P l) (filter Q l).
Proof.
  intros Himp. induction l as [|x l IH]; [done|].
  rewrite !filter_cons.
  destruct (decide (P x)) as [Hp|Hp].
  - rewrite decide_True by (by apply Himp). by apply sublist_skip.
  - destruct (decide (Q x)); [by apply sublist_cons|done].
Qed.

(** The entries shown are entries of the list, in their order; an empty
    search shows them all; and a search term whose lower-cased form
    contains the lower-cased form of another shows no entry the other
    does not show. *)
Theorem filteredEntries_narrows (toLowerCase : jsstring → jsstring)
    (entries : list Entry) :
  toLowerCase [] = [] →
  filteredEntries toLowerCase entries [] = entries
  ∧ (∀ term, sublist (filteredEntries toLowerCase entries term) entries)
  ∧ (∀ shorter longer,
       includes (toLowerCase shorter) (toLowerCase longer) = true →
       sublist (filteredEntries toLowerCase entries longer)
               (filteredEntries toLowerCase entries shorter)).
Proof.
  intros Hempty. split; [|split].
  - unfold filteredEntries. rewrite Hempty.
    induction entries as [|e l IH]; [done|].
    rewrite filter_cons_True by (by rewrite includes_empty).
    by rewrite IH.
  - intros term. apply sublist_filter.
  - intros shorter longer Hinc. unfold filteredEntries.
    apply filter_sublist_mono. intros e Hl.
    apply orb_true_iff in Hl. apply orb_true_iff.
    destruct Hl as [Hl|Hl]; [left|right];
      by apply (includes_trans _ (toLowerCase longer)).
Qed.

Lemma filteredEntries_narrows_witness :
  filteredEntries PageSamples.ascii_lower PageSamples.sample_entries []
  = PageSamples.sample_entries.
Proof.
  apply (proj1 (filteredEntries_narrows PageSamples.ascii_lower
                  PageSamples.sample_entries eq_refl)).
Defined.

End GlossarySearchFacts.

(** ** The files page *)

Module FilesFacts.
Import Types JS JSFacts FilesPage.

Lemma last_segment (pre name : jsstring) :
  46%N ∉ name →
  last (split 46 (pre ++ 46%N :: name)) = Some name
  ∧ last (split 46 name) = Some name.
Proof.
  intros Hdot. rewrite split_app, (split_without_separator 46 name Hdot).
  split; [|done]. by rewrite last_snoc.
Qed.

(** The icon of a file depends only on what follows the last dot of its
    name, and a name without a dot is taken to be its own extension: for a
    dot-free [name], the files [name] and [<anything>.name] get the same
    icon, the one of the extension [.name] in lower case, or the default
    icon when there is none. *)
Theorem getFileIcon_after_last_dot (toLowerCase : jsstring → jsstring)
    (pre name : jsstring) :
  46%N ∉ name →
  getFileIcon toLowerCase (pre ++ js "." ++ name)
  = getFileIcon toLowerCase name
  ∧ getFileIcon toLowerCase name
    = default File (fileIcons (js "." ++ toLowerCase name)).
Proof.
  intros Hdot. unfold getFileIcon.
  change (js "." ++ name) with (46%N :: name).
  destruct (last_segment pre name Hdot) as [-> ->]. done.
Qed.

Lemma getFileIcon_after_last_dot_witness :
  getFileIcon PageSamples.ascii_lower (js "report" ++ js "." ++ js "PDF")
  = FileSpreadsheet.
Proof.
  destruct (getFileIcon_after_last_dot PageSamples.ascii_lower (js "report")
              (js "PDF")) as [-> ->]; [|reflexivity].
  apply (bool_decide_unpack _). vm_compute. exact I.
Defined.

End FilesFacts.

(** ** Uploading a file *)

Module UploadFacts.
Import Types JS FilesPage.

Lemma map_at_length {A : Type} (index : nat) (f : A → A) (l : list A) :
  length (map_at index f l) = length l.
Proof. unfold map_at. apply length_imap. Qed.

Lemma map_at_lookup {A : Type} (index : nat) (f : A → A) (l : list A) (j : nat) :
  map_at index f l !! j = if decide (j = index) then f <$> l !! j else l !! j.
Proof.
  unfold map_at. rewrite list_lookup_imap.
  destruct (decide (j = index)) as [->|Hne].
  - rewrite Nat.eqb_refl. done.
  - apply Nat.eqb_neq in Hne. rewrite Hne. by destruct (l !! j).
Qed.

Lemma updated_at_map_at (index : nat) (files : list UploadedFile)
    (st st' : UploadStatus) (p p' : Z) (h : UploadedFile → UploadedFile)
    (s : list UploadedFile) :
  updated_at index files st p s →
  (∀ g, upload_status g = st →
        upload_file (h g) = upload_file g ∧ upload_status (h g) = st'
        ∧ upload_progress (h g) = p') →
  updated_at index files st' p' (map_at index h s).
Proof.
  intros (Hlen & Hother & f & g & Hf & Hg & Hfile & Hst & Hp) Hh.
  split; [by rewrite map_at_length|]. split.
  - intros j Hj. rewrite map_at_lookup, decide_False by done. by apply Hother.
  - exists f, (h g). rewrite map_at_lookup, decide_True, Hg by done.
    destruct (Hh g Hst) as (H1 & H2 & H3). cbn. repeat split; congruence.
Qed.

Lemma last_cons_default {A : Type} (l : list A) :
  ∀ a d, List.last (a :: l) d = List.last l a.
Proof.
  induction l as [|b l IH]; intros a d; [done|].
  change (List.last (a :: b :: l) d) with (List.last (b :: l) d).
  by rewrite (IH b d), (IH b a).
Qed.

Lemma updated_at_progress (index : nat) (files : list UploadedFile)
    (st : UploadStatus) (p : Z) (s : list UploadedFile) :
  updated_at index files st p s → upload_progress <$> s !! index = Some p.
Proof. intros (_ & _ & f & g & _ & -> & _ & _ & <-). done. Qed.

Section Polling.
Context (translate_reply : Awaited FileTranslationResponse)
        (status_reply : nat → Awaited FileTranslationResponse)
        (index : nat) (files : list UploadedFile).

Definition poll_progress (i : nat) : Z := (50 + Z.min (Z.of_nat i * 2) 40)%Z.

Lemma poll_progress_bounds (i : nat) : (50 ≤ poll_progress i ≤ 90)%Z.
Proof. unfold poll_progress. lia. Qed.

Lemma poll_states (n : nat) :
  ∀ i cur last states out p,
    updated_at index files upload_processing p cur →
    (50 ≤ p ≤ 90)%Z →
    poll status_reply n i index cur last = (states, out) →
    length states ≤ n
    ∧ progress_trace index states = map poll_progress (seq i (length states))
    ∧ Forall (λ s, length s = length files
                   ∧ ∀ j, j ≠ index → s !! j = files !! j) states
    ∧ ∃ q, updated_at index files upload_processing q (List.last states cur)
           ∧ (50 ≤ q ≤ 90)%Z.
Proof.
  induction n as [|n IH]; intros i cur last states out p Hcur Hp; cbn [poll].
  - intros [= <- <-]. cbn. split; [lia|]. split; [done|]. split; [done|].
    by exists p.
  - destruct (status_reply i) as [r|e].
    2: { intros [= <- <-]. cbn. split; [lia|]. split; [done|]. split; [done|].
         by exists p. }
    set (cur' := map_at index (with_progress_only (poll_progress i)) cur).
    assert (updated_at index files upload_processing (poll_progress i) cur')
      as Hcur'.
    { apply (updated_at_map_at _ _ upload_processing _ p); [done|].
      intros g Hg. cbn. done. }
    fold (poll_progress i). fold cur'.
    case_bool_decide as Hdone.
    + intros [= <- <-]. cbn. split; [lia|]. split.
      { unfold progress_trace. cbn.
        by rewrite (updated_at_progress _ _ _ _ _ Hcur'). }
      split.
      { constructor; [|done]. destruct Hcur' as (H1 & H2 & _). done. }
      exists (poll_progress i). split; [done|apply poll_progress_bounds].
    + destruct (poll status_reply n (S i) index cur' r) as [states' out']
        eqn:Hpoll.
      intros [= <- <-].
      destruct (IH (S i) cur' r states' out' _ Hcur' (poll_progress_bounds i)
                  Hpoll) as (Hlen & Hprog & Hall & q & Hlast & Hq).
      cbn [length]. split; [lia|]. split.
      { unfold progress_trace in *. cbn.
        rewrite (updated_at_progress _ _ _ _ _ Hcur'). cbn. by rewrite Hprog. }
      split.
      { constructor; [|done]. destruct Hcur' as (H1 & H2 & _). done. }
      exists q. split; [|done]. by rewrite last_cons_default.
Qed.

(** While every answer says the job is neither completed nor failed, the
    loop runs all its iterations and ends with the last answer. *)
Lemma poll_times_out (n : nat) :
  ∀ i cur last,
    (∀ j, i ≤ j < i + n →
          ∃ r, status_reply j = Resolved r
               ∧ response_status r ≠ completed ∧ response_status r ≠ failed) →
    response_status last ≠ completed →
    ∃ states r,
      poll status_reply n i index cur last = (states, Resolved r)
      ∧ length states = n ∧ response_status r ≠ completed.
Proof.
  induction n as [|n IH]; intros i cur last Hreplies Hlast; cbn [poll].
  - by exists [], last.
  - destruct (Hreplies i) as (r & -> & Hc & Hf); [lia|].
    rewrite bool_decide_eq_false_2 by tauto.
    destruct (IH (S i)
                (map_at index
                   (with_progress_only (50 + Z.min (Z.of_nat i * 2) 40)) cur) r)
      as (states & r' & -> & Hlen & Hr'); [intros j Hj; apply Hreplies; lia|done|].
    eexists _, r'. split; [done|]. cbn. split; [lia|done].
Qed.

End Polling.

Section Uploading.
Context (translate_reply : Awaited FileTranslationResponse)
        (status_reply : nat → Awaited FileTranslationResponse)
        (index : nat) (files : list UploadedFile).

Lemma final_state (q : Z) (cur : list UploadedFile)
    (out : Awaited FileTranslationResponse) :
  updated_at index files upload_processing q cur →
  let final := match out with
               | Resolved fin => map_at index (finished fin) cur
               | Rejected e => map_at index (crashed e) cur
               end in
  progress_trace index [final] = [100%Z]
  ∧ length final = length files
  ∧ (∀ j, j ≠ index → final !! j = files !! j)
  ∧ ∃ f g, files !! index = Some f ∧ final !! index = Some g
           ∧ upload_file g = upload_file f
           ∧ upload_progress g = 100%Z
           ∧ (upload_status g = upload_completed
              ∨ upload_status g = upload_failed)
           ∧ (upload_status g = upload_completed →
              ∃ r, out = Resolved r ∧ upload_result g = Some r
                   ∧ response_status r = completed)
           ∧ (∀ r, out = Resolved r → response_status r = completed →
                   upload_status g = upload_completed).
Proof.
  intros (Hlen & Hother & f & g & Hf & Hg & Hfile & Hst & Hp) final.
  assert (∃ h, final = map_at index h cur
               ∧ h = match out with
                     | Resolved fin => finished fin
                     | Rejected e => crashed e
                     end) as (h & Hfinal & Hh) by (destruct out; eauto).
  assert (final !! index = Some (h g)) as Hlook
    by (by rewrite Hfinal, map_at_lookup, decide_True, Hg).
  split.
  { unfold progress_trace. cbn. rewrite Hlook. cbn. by destruct out; subst h. }
  split; [by rewrite Hfinal, map_at_length|]. split.
  { intros j Hj. rewrite Hfinal, map_at_lookup, decide_False by done.
    by apply Hother. }
  exists f, (h g). split; [done|]. split; [done|].
  destruct out as [fin|e]; subst h; cbn.
  - split; [done|]. split; [done|]. split; [case_bool_decide; eauto|].
    split.
    + case_bool_decide; [eauto|done].
    + intros r [= <-] Hr. by rewrite bool_decide_eq_true_2.
  - split; [done|]. split; [done|]. split; [by right|].
    split; [done|]. intros r [=].
Qed.

(** What [uploadFile] sets for a pending file: the upload, the processing,
    one state per poll, and the end. *)
Lemma uploadFile_trace (f : UploadedFile) :
  files !! index = Some f → upload_status f = upload_pending →
  ∃ s1 s2 states out q,
    uploadFile translate_reply status_reply index files
    = [s1; s2] ++ states
      ++ [match out with
          | Resolved fin => map_at index (finished fin) (List.last states s2)
          | Rejected e => map_at index (crashed e) (List.last states s2)
          end]
    ∧ updated_at index files upload_uploading 20 s1
    ∧ updated_at index files upload_processing 50 s2
    ∧ length states ≤ 60
    ∧ progress_trace index states = map poll_progress (seq 0 (length states))
    ∧ Forall (λ s, length s = length files
                   ∧ ∀ j, j ≠ index → s !! j = files !! j) states
    ∧ updated_at index files upload_processing q (List.last states s2)
    ∧ (∀ result,
         translate_reply = Resolved result →
         response_status result = processing →
         (states, out) = poll status_reply 60 0 index s2 result)
    ∧ (∀ result,
         translate_reply = Resolved result →
         response_status result ≠ processing →
         states = [] ∧ out = Resolved result)
    ∧ (∀ e, translate_reply = Rejected e → states = [] ∧ out = Rejected e).
Proof.
  intros Hf Hpending. unfold uploadFile. rewrite Hf.
  rewrite bool_decide_eq_false_2 by (intros H; by apply H).
  set (s1 := map_at index (with_progress upload_uploading 20) files).
  set (s2 := map_at index (with_progress upload_processing 50) s1).
  assert (updated_at index files upload_pending (upload_progress f) files)
    as H0.
  { split; [done|]. split; [done|]. exists f, f. done. }
  assert (updated_at index files upload_uploading 20 s1) as H1.
  { apply (updated_at_map_at _ _ upload_pending _ (upload_progress f));
      [done|]. intros g Hg. done. }
  assert (updated_at index files upload_processing 50 s2) as H2.
  { apply (updated_at_map_at _ _ upload_uploading _ 20); [done|].
    intros g Hg. done. }
  destruct translate_reply as [result|e].
  - case_bool_decide as Hproc.
    + destruct (poll status_reply 60 0 index s2 result) as [states out]
        eqn:Hpoll.
      destruct (poll_states status_reply index files 60 0 s2 result states
                  out 50 H2 ltac:(lia) Hpoll)
        as (Hlen & Hprog & Hall & q & Hlast & Hq).
      exists s1, s2, states, out, q.
      split_and!; try done; try (by intros result' [= <-] ?).
    + exists s1, s2, [], (Resolved result), 50%Z.
      split_and!; try done; try (cbn; lia);
        try (by intros result' [= <-] ?); try (by intros e' [= <-]).
  - exists s1, s2, [], (Rejected e), 50%Z.
    split_and!; try done; try (cbn; lia);
      try (by intros result' [= <-] ?); try (by intros e' [= <-]).
Qed.

End Uploading.

Lemma poll_progress_sorted (k : nat) :
  ∀ i, Sorted Z.le (map poll_progress (seq i k) ++ [100%Z])
       ∧ Forall (λ p, (20 ≤ p ≤ 100)%Z) (map poll_progress (seq i k) ++ [100%Z]).
Proof.
  induction k as [|k IH]; intros i; cbn.
  - split; [repeat constructor|]. constructor; [lia|done].
  - destruct (IH (S i)) as [Hs Hb]. pose proof (poll_progress_bounds i).
    split; [|constructor; [lia|done]].
    constructor; [done|]. destruct k; cbn.
    + constructor. lia.
    + constructor. unfold poll_progress. lia.
Qed.

Section Outcome.
Context (translate_reply : Awaited FileTranslationResponse)
        (status_reply : nat → Awaited FileTranslationResponse)
        (index : nat) (files : list UploadedFile).

Abbreviation trace := (uploadFile translate_reply status_reply index files).



End Outcome.


Lemma removeFile_from (index : nat) (l : list UploadedFile) :
  ∀ k, omap id (imap (λ i f, if (k + i =? index)%nat then None else Some f) l)
       = if decide (index < k) then l else delete (index - k) l.
Proof.
  induction l as [|x l IH]; intros k.
  - cbn. by destruct (decide _).
  - rewrite imap_cons. cbn [omap list_omap].
    rewrite (imap_ext _ (λ i f, if (S k + i =? index)%nat then None else Some f))
      by (intros i y _; cbn; by rewrite Nat.add_succ_r).
    rewrite IH.
    destruct (k + 0 =? index)%nat eqn:E; cbn.
    + apply Nat.eqb_eq in E. rewrite decide_True by lia.
      rewrite decide_False by lia. by replace (index - k) with 0 by lia.
    + apply Nat.eqb_neq in E. destruct (decide (index < k)).
      * by rewrite decide_True by lia.
      * rewrite decide_False by lia.
        by replace (index - k) with (S (index - S k)) by lia.
Qed.

(** [removeFile] removes the file at [index] and only that one: the files
    before it stay where they are, the files after it move up by one, and
    an index beyond the list changes nothing.  Removing a file that was
    just dropped gives back the list as it was. *)
Theorem removeFile_deletes (index : nat) (prev : list UploadedFile) :
  removeFile index prev = delete index prev
  ∧ (∀ j, j < index → removeFile index prev !! j = prev !! j)
  ∧ (∀ j, index ≤ j → removeFile index prev !! j = prev !! S j)
  ∧ (length prev ≤ index → removeFile index prev = prev)
  ∧ (∀ file, removeFile (length prev) (onDrop [file] prev) = prev).
Proof.
  assert (∀ i l, removeFile i l = delete i l) as Hdel.
  { intros i l. pose proof (removeFile_from i l 0) as H.
    destruct (decide (i < 0)) as [?|_]; [lia|].
    rewrite Nat.sub_0_r in H. exact H. }
  split; [apply Hdel|]. rewrite !Hdel. split; [|split; [|split]].
  - intros j Hj. by apply list_lookup_delete_lt.
  - intros j Hj. by apply list_lookup_delete_ge.
  - intros Hlen. rewrite delete_take_drop.
    rewrite take_ge, drop_ge by lia. apply app_nil_r.
  - intros file. rewrite Hdel. unfold onDrop. cbn [map].
    rewrite delete_middle. apply app_nil_r.
Qed.

End UploadFacts.
